(** * node-extras: safeJSON and validateForm

    A shallow embedding of the two utilities of the package, each of
    which the repository holds in two versions:
    - [SafeJSON_ts.safeJSON] is src/src/util/safeJSON.ts and
      [Part_000.safeJSON] is src/unnamed/part_000;
    - [ValidateForm_ts.validateForm] is src/src/util/validateForm.ts and
      [Class_ts.validateForm] is the version kept in
      src/src/type/Class.ts;
    together with the part of the run-time they call: [ToString],
    [JSON.stringify], [JSON.parse], the creation of object properties and
    [FormData.get].

    Modelling choices.
    - A JavaScript string is a sequence of UTF-16 code units: [list N].
    - A Number is an exact decimal [m * 10^e] (or NaN, or an infinity).
      Rounding a literal to the nearest binary64 value is not modelled:
      a literal keeps its decimal value, also beyond the binary64 range,
      where the run-time answers an infinity or a zero, and the two
      zeros are one value (they are equal under [===]).  What is stated
      below about the result of parsing an arbitrary text therefore
      says that a number is a number, not which one.
    - Values are finite trees: primitives, dense arrays, ordinary objects
      (own enumerable string-keyed data properties in property order,
      prototype [Object.prototype]) and the two host objects a form
      container can hand out ([File], [FormData]).  Functions, accessors,
      [toJSON] hooks, boxed primitives and cyclic structures are outside
      the model.
    - An abrupt completion (a thrown exception, a rejected promise that
      is awaited) is the [Throw] case of [completion]; an [async]
      function is the completion of its body.
    - A Zod schema is its [safeParse], a total function: by its contract
      it reports every outcome as data. *)

From Stdlib Require Import NArith ZArith Lia Bool Ascii String.
From Stdlib Require Import Decimal DecimalFacts DecimalN List.
Import ListNotations.

#[local] Open Scope N_scope.

(** ** Strings *)

(** Code units are written as numbers.  Those the definitions name:
    9, 10, 13, 32 white space; 34 the double quote; 43 [+]; 44 [,];
    45 [-]; 46 [.]; 47 [/]; 48 to 57 the digits; 58 [:]; 65 to 70 [A] to
    [F]; 69 [E]; 91 and 93 the square brackets; 92 the backslash; 97 to
    102 [a] to [f]; 98 [b]; 101 [e]; 102 [f]; 110 [n]; 114 [r]; 116 [t];
    117 [u]; 123 and 125 the braces; 55296 to 56319 the leading and
    56320 to 57343 the trailing surrogates. *)
Definition jsstring := list N.

(** The code units of an ASCII literal. *)
Definition str (s : string) : jsstring :=
  map N_of_ascii (list_ascii_of_string s).

Fixpoint jsstring_eqb (a b : jsstring) : bool :=
  match a, b with
  | [], [] => true
  | x :: a', y :: b' => (x =? y) && jsstring_eqb a' b'
  | _, _ => false
  end.

(** ** Completions: normal results and thrown exceptions *)

Inductive exn :=
| SyntaxError
| TypeError
| DOMException (name : jsstring).

Inductive completion (A : Type) :=
| Normal (a : A)
| Throw (e : exn).

Arguments Normal {A} a.
Arguments Throw {A} e.

Notation "x <- c ;; k" :=
  (match c with
   | Normal x => k
   | Throw e => Throw e
   end) (at level 61, c at next level, right associativity).

(** [try { body } catch { handler }] *)
Definition try_catch {A} (body : completion A) (handler : completion A) : completion A :=
  match body with
  | Normal a => Normal a
  | Throw _ => handler
  end.

(** ** Values *)

Inductive number :=
| NaN
| Infinity (negative : bool)
| Finite (m : Z) (e : Z).

Record File := { file_name : jsstring }.

Inductive FormDataEntryValue :=
| EntryString (s : jsstring)
| EntryFile (f : File).

Definition FormData := list (jsstring * FormDataEntryValue).

#[local] Unset Elimination Schemes.

Inductive value :=
| VUndefined
| VNull
| VBool (b : bool)
| VNumber (n : number)
| VBigInt (z : Z)
| VString (s : jsstring)
| VSymbol (description : jsstring)
| VArray (elements : list value)
| VObject (properties : list (jsstring * value))
| VFile (f : File)
| VFormData (fd : FormData).

#[local] Set Elimination Schemes.

(** ** Decimal digits *)

Fixpoint uint_chars (u : uint) : jsstring :=
  match u with
  | Nil => []
  | D0 u => 48 :: uint_chars u
  | D1 u => 49 :: uint_chars u
  | D2 u => 50 :: uint_chars u
  | D3 u => 51 :: uint_chars u
  | D4 u => 52 :: uint_chars u
  | D5 u => 53 :: uint_chars u
  | D6 u => 54 :: uint_chars u
  | D7 u => 55 :: uint_chars u
  | D8 u => 56 :: uint_chars u
  | D9 u => 57 :: uint_chars u
  end.

Definition is_digit (c : N) : bool := (48 <=? c) && (c <=? 57).

(** Reads a sequence of digit code units; other code units end it. *)
Fixpoint chars_uint (s : jsstring) : uint :=
  match s with
  | [] => Nil
  | c :: r =>
    let u := chars_uint r in
    if c =? 48 then D0 u
    else if c =? 49 then D1 u
    else if c =? 50 then D2 u
    else if c =? 51 then D3 u
    else if c =? 52 then D4 u
    else if c =? 53 then D5 u
    else if c =? 54 then D6 u
    else if c =? 55 then D7 u
    else if c =? 56 then D8 u
    else if c =? 57 then D9 u
    else Nil
  end.

Definition digits (n : N) : jsstring := uint_chars (N.to_uint n).

Definition digits_value (s : jsstring) : N := N.of_uint (chars_uint s).

Fixpoint drop_zeros (s : jsstring) : jsstring :=
  match s with
  | c :: r => if c =? 48 then drop_zeros r else s
  | [] => []
  end.

(** Removes the trailing zero digits of a digit sequence and counts them. *)
Definition strip_trailing_zeros (s : jsstring) : jsstring * Z :=
  let t := rev (drop_zeros (rev s)) in
  (t, Z.of_nat (length s) - Z.of_nat (length t))%Z.

(** ** Number::toString (radix 10) *)

Definition is_finite (x : number) : bool :=
  match x with
  | Finite _ _ => true
  | _ => false
  end.

(** The digits [s], [k] of them and the last one not zero, and the
    position [n] of the decimal point stand for [0.s * 10^n]. *)
Definition decimal_text (s : jsstring) (n : Z) : jsstring :=
  let k := Z.of_nat (length s) in
  if ((k <=? n) && (n <=? 21))%Z then
    s ++ repeat 48 (Z.to_nat (n - k))
  else if ((0 <? n) && (n <=? 21))%Z then
    firstn (Z.to_nat n) s ++ 46 :: skipn (Z.to_nat n) s
  else if ((-6 <? n) && (n <=? 0))%Z then
    48 :: 46 :: repeat 48 (Z.to_nat (- n)) ++ s
  else
    let x := (n - 1)%Z in
    let exponent := 101 :: (if (x <? 0)%Z then 45 else 43) :: digits (Z.abs_N x) in
    match s with
    | [] => []
    | [d] => d :: exponent
    | d :: r => d :: 46 :: r ++ exponent
    end.

Definition Number_toString (x : number) : jsstring :=
  match x with
  | NaN => str "NaN"
  | Infinity false => str "Infinity"
  | Infinity true => str "-Infinity"
  | Finite m e =>
    if (m =? 0)%Z then str "0" else
    let '(s, z) := strip_trailing_zeros (digits (Z.abs_N m)) in
    (if (m <? 0)%Z then [45] else []) ++
    decimal_text s (Z.of_nat (length s) + e + z)
  end.

Definition BigInt_toString (z : Z) : jsstring :=
  (if (z <? 0)%Z then [45] else []) ++ digits (Z.abs_N z).

(** ** Ordinary objects: property lookup and creation *)

Fixpoint has_key {A} (k : jsstring) (props : list (jsstring * A)) : bool :=
  match props with
  | [] => false
  | (k', _) :: r => jsstring_eqb k k' || has_key k r
  end.

Fixpoint Get {A} (props : list (jsstring * A)) (k : jsstring) : option A :=
  match props with
  | [] => None
  | (k', v) :: r => if jsstring_eqb k k' then Some v else Get r k
  end.

(** An array index is the canonical decimal form of an integer below
    2^32 - 1.  Such keys come first, in ascending order, when the
    properties of an ordinary object are listed. *)
Definition array_index (k : jsstring) : option N :=
  match k with
  | [] => None
  | c :: r =>
    if forallb is_digit k && (negb (c =? 48) || match r with [] => true | _ => false end)
    then let i := digits_value k in
         if i <? 4294967295 then Some i else None
    else None
  end.

Fixpoint replace_value {A} (k : jsstring) (v : A) (props : list (jsstring * A)) :=
  match props with
  | [] => []
  | (k', v') :: r =>
    if jsstring_eqb k k' then (k', v) :: r else (k', v') :: replace_value k v r
  end.

Fixpoint insert_index {A} (i : N) (k : jsstring) (v : A) (props : list (jsstring * A)) :=
  match props with
  | [] => [(k, v)]
  | (k', v') :: r =>
    match array_index k' with
    | Some j => if j <? i then (k', v') :: insert_index i k v r else (k, v) :: props
    | None => (k, v) :: props
    end
  end.

Definition CreateDataProperty {A} (props : list (jsstring * A)) (k : jsstring) (v : A) :=
  if has_key k props then replace_value k v props
  else match array_index k with
       | Some i => insert_index i k v props
       | None => props ++ [(k, v)]
       end.

(** ** ToString *)

Fixpoint ToString (v : value) : completion jsstring :=
  match v with
  | VUndefined => Normal (str "undefined")
  | VNull => Normal (str "null")
  | VBool true => Normal (str "true")
  | VBool false => Normal (str "false")
  | VNumber n => Normal (Number_toString n)
  | VBigInt z => Normal (BigInt_toString z)
  | VString s => Normal s
  | VSymbol _ => Throw TypeError
  | VArray l =>
    (* Array.prototype.join with a comma as separator *)
    (fix join (l : list value) : completion jsstring :=
       match l with
       | [] => Normal []
       | x :: r =>
         sx <- match x with
               | VUndefined | VNull => Normal []
               | _ => ToString x
               end ;;
         match r with
         | [] => Normal sx
         | _ :: _ => sr <- join r ;; Normal (sx ++ 44 :: sr)
         end
       end) l
  | VObject props =>
    (* an own property toString is not callable here, which leaves
       Object.prototype.valueOf, and that does not return a primitive *)
    if has_key (str "toString") props then Throw TypeError
    else Normal (str "[object Object]")
  | VFile _ => Normal (str "[object File]")
  | VFormData _ => Normal (str "[object FormData]")
  end.

(** ** QuoteJSONString *)

Definition hex_char (d : N) : N :=
  if d <? 10 then 48 + d else 87 + d.

(** [\uXXXX] with lower-case hexadecimal digits *)
Definition UnicodeEscape (c : N) : jsstring :=
  [92; 117; hex_char (c / 4096); hex_char ((c / 256) mod 16);
   hex_char ((c / 16) mod 16); hex_char (c mod 16)].

Definition is_leading_surrogate (c : N) : bool := (55296 <=? c) && (c <=? 56319).
Definition is_trailing_surrogate (c : N) : bool := (56320 <=? c) && (c <=? 57343).

Definition quote_unit (c : N) : jsstring :=
  if c =? 8 then [92; 98]
  else if c =? 9 then [92; 116]
  else if c =? 10 then [92; 110]
  else if c =? 12 then [92; 102]
  else if c =? 13 then [92; 114]
  else if c =? 34 then [92; 34]
  else if c =? 92 then [92; 92]
  else if (c <? 32) || is_leading_surrogate c || is_trailing_surrogate c
       then UnicodeEscape c
  else [c].

(** The code points of the string are visited in turn: a surrogate pair
    is one code point and is copied, a lone surrogate is escaped. *)
Fixpoint quote_chars (s : jsstring) : jsstring :=
  match s with
  | [] => []
  | c :: r =>
    if is_leading_surrogate c then
      match r with
      | d :: r' =>
        if is_trailing_surrogate d then c :: d :: quote_chars r'
        else UnicodeEscape c ++ quote_chars r
      | [] => UnicodeEscape c
      end
    else quote_unit c ++ quote_chars r
  end.

Definition QuoteJSONString (s : jsstring) : jsstring :=
  34 :: quote_chars s ++ [34].

(** ** JSON.stringify (no replacer, no indentation) *)

Fixpoint join_comma (parts : list jsstring) : jsstring :=
  match parts with
  | [] => []
  | [p] => p
  | p :: r => p ++ 44 :: join_comma r
  end.

(** [None] stands for the result [undefined]. *)
Fixpoint SerializeJSONProperty (v : value) : completion (option jsstring) :=
  match v with
  | VNull => Normal (Some (str "null"))
  | VBool true => Normal (Some (str "true"))
  | VBool false => Normal (Some (str "false"))
  | VString s => Normal (Some (QuoteJSONString s))
  | VNumber n =>
    Normal (Some (if is_finite n then Number_toString n else str "null"))
  | VBigInt _ => Throw TypeError
  | VUndefined | VSymbol _ => Normal None
  | VArray l =>
    (* SerializeJSONArray *)
    partial <- (fix elements (l : list value) : completion (list jsstring) :=
                  match l with
                  | [] => Normal []
                  | x :: r =>
                    strP <- SerializeJSONProperty x ;;
                    rest <- elements r ;;
                    Normal (match strP with
                            | Some t => t
                            | None => str "null"
                            end :: rest)
                  end) l ;;
    Normal (Some (91 :: join_comma partial ++ [93]))
  | VObject props =>
    (* SerializeJSONObject *)
    partial <- (fix members (l : list (jsstring * value)) : completion (list jsstring) :=
                  match l with
                  | [] => Normal []
                  | (P, x) :: r =>
                    strP <- SerializeJSONProperty x ;;
                    rest <- members r ;;
                    Normal (match strP with
                            | Some t => (QuoteJSONString P ++ 58 :: t) :: rest
                            | None => rest
                            end)
                  end) props ;;
    Normal (Some (123 :: join_comma partial ++ [125]))
  | VFile _ | VFormData _ =>
    (* an object without own enumerable properties *)
    Normal (Some (str "{}"))
  end.

Definition JSON_stringify (v : value) : completion value :=
  r <- SerializeJSONProperty v ;;
  Normal (match r with
          | Some t => VString t
          | None => VUndefined
          end).

(** ** JSON.parse (no reviver) *)

(** *** Tokens *)

Definition is_whitespace (c : N) : bool :=
  (c =? 9) || (c =? 10) || (c =? 13) || (c =? 32).

Fixpoint skip_ws (s : jsstring) : jsstring :=
  match s with
  | c :: r => if is_whitespace c then skip_ws r else s
  | [] => []
  end.

Fixpoint strip_prefix (p s : jsstring) : option jsstring :=
  match p, s with
  | [], _ => Some s
  | a :: p', b :: s' => if a =? b then strip_prefix p' s' else None
  | _ :: _, [] => None
  end.

Definition hex_value (c : N) : option N :=
  if is_digit c then Some (c - 48)
  else if (97 <=? c) && (c <=? 102) then Some (c - 87)
  else if (65 <=? c) && (c <=? 70) then Some (c - 55)
  else None.

Definition hex4 (a b c d : N) : option N :=
  match hex_value a, hex_value b, hex_value c, hex_value d with
  | Some x3, Some x2, Some x1, Some x0 => Some (4096 * x3 + 256 * x2 + 16 * x1 + x0)
  | _, _, _, _ => None
  end.

(** The code unit denoted by a single-character escape. *)
Definition escape_unit (e : N) : option N :=
  if e =? 34 then Some 34
  else if e =? 47 then Some 47
  else if e =? 92 then Some 92
  else if e =? 98 then Some 8
  else if e =? 102 then Some 12
  else if e =? 110 then Some 10
  else if e =? 114 then Some 13
  else if e =? 116 then Some 9
  else None.

Definition cons_unit (c : N) (r : option (jsstring * jsstring)) :=
  match r with
  | Some (t, rest) => Some (c :: t, rest)
  | None => None
  end.

(** The characters of a string token, after its opening quote, up to and
    including the closing quote. *)
Fixpoint parse_string_chars (s : jsstring) : option (jsstring * jsstring) :=
  match s with
  | [] => None
  | c :: r =>
    if c =? 34 then Some ([], r)
    else if c =? 92 then
      match r with
      | [] => None
      | e :: r1 =>
        if e =? 117 then
          match r1 with
          | h1 :: h2 :: h3 :: h4 :: r2 =>
            match hex4 h1 h2 h3 h4 with
            | Some u => cons_unit u (parse_string_chars r2)
            | None => None
            end
          | _ => None
          end
        else
          match escape_unit e with
          | Some u => cons_unit u (parse_string_chars r1)
          | None => None
          end
      end
    else if c <? 32 then None
    else cons_unit c (parse_string_chars r)
  end.

Fixpoint span_digits (s : jsstring) : jsstring * jsstring :=
  match s with
  | c :: r =>
    if is_digit c then let '(d, rest) := span_digits r in (c :: d, rest)
    else ([], s)
  | [] => ([], [])
  end.

(** [0], or a digit other than zero followed by digits *)
Definition parse_int_part (s : jsstring) : option (jsstring * jsstring) :=
  match s with
  | c :: r =>
    if c =? 48 then Some ([48], r)
    else if is_digit c then let '(d, rest) := span_digits r in Some (c :: d, rest)
    else None
  | [] => None
  end.

(** An optional [.] followed by one digit at least *)
Definition parse_fraction (s : jsstring) : option (jsstring * jsstring) :=
  match s with
  | c :: r =>
    if c =? 46 then
      match span_digits r with
      | ([], _) => None
      | (d, rest) => Some (d, rest)
      end
    else Some ([], s)
  | [] => Some ([], [])
  end.

(** An optional [e] or [E], an optional sign and one digit at least *)
Definition parse_exponent (s : jsstring) : option (Z * jsstring) :=
  match s with
  | c :: r =>
    if (c =? 101) || (c =? 69) then
      let '(negative, r1) := match r with
                             | sign :: r' =>
                               if sign =? 43 then (false, r')
                               else if sign =? 45 then (true, r')
                               else (false, r)
                             | [] => (false, r)
                             end in
      match span_digits r1 with
      | ([], _) => None
      | (d, rest) =>
        let x := Z.of_N (digits_value d) in
        Some (if negative then (- x)%Z else x, rest)
      end
    else Some (0%Z, s)
  | [] => Some (0%Z, [])
  end.

(** The value of a number token, in canonical form. *)
Definition decimal_number (negative : bool) (int frac : jsstring) (exp : Z) : number :=
  let '(s, z) := strip_trailing_zeros (int ++ frac) in
  let m := Z.of_N (digits_value s) in
  if (m =? 0)%Z then Finite 0 0
  else Finite (if negative then (- m)%Z else m)
              (exp - Z.of_nat (length frac) + z).

Definition parse_unsigned (negative : bool) (s : jsstring) : option (number * jsstring) :=
  match parse_int_part s with
  | None => None
  | Some (int, s2) =>
    match parse_fraction s2 with
    | None => None
    | Some (frac, s3) =>
      match parse_exponent s3 with
      | None => None
      | Some (exp, s4) => Some (decimal_number negative int frac exp, s4)
      end
    end
  end.

(** An optional [-], the integer part, and the optional parts. *)
Definition parse_number (s : jsstring) : option (number * jsstring) :=
  match s with
  | c :: r => if c =? 45 then parse_unsigned true r else parse_unsigned false s
  | [] => None
  end.

(** *** Values *)

Inductive presult (A : Type) :=
| POk (a : A) (rest : jsstring)
| PSyntaxError
| POutOfFuel.

Arguments POk {A} a rest.
Arguments PSyntaxError {A}.
Arguments POutOfFuel {A}.

Definition of_token {A} (make : A -> value) (r : option (A * jsstring)) : presult value :=
  match r with
  | Some (a, rest) => POk (make a) rest
  | None => PSyntaxError
  end.

(** The properties of an object literal are created in source order. *)
Definition object_of_members (members : list (jsstring * value)) : value :=
  VObject (fold_left (fun props m => CreateDataProperty props (fst m) (snd m)) members []).

Fixpoint parse_value (fuel : nat) (s : jsstring) : presult value :=
  match fuel with
  | O => POutOfFuel
  | S fuel =>
    match skip_ws s with
    | [] => PSyntaxError
    | c :: r =>
      if c =? 123 then
        match skip_ws r with
        | [] => PSyntaxError
        | c' :: r' =>
          if c' =? 125 then POk (VObject []) r'
          else match parse_members fuel (c' :: r') with
               | POk members rest => POk (object_of_members members) rest
               | PSyntaxError => PSyntaxError
               | POutOfFuel => POutOfFuel
               end
        end
      else if c =? 91 then
        match skip_ws r with
        | [] => PSyntaxError
        | c' :: r' =>
          if c' =? 93 then POk (VArray []) r'
          else match parse_elements fuel (c' :: r') with
               | POk elements rest => POk (VArray elements) rest
               | PSyntaxError => PSyntaxError
               | POutOfFuel => POutOfFuel
               end
        end
      else if c =? 34 then of_token VString (parse_string_chars r)
      else if (c =? 45) || is_digit c then of_token VNumber (parse_number (c :: r))
      else if c =? 116 then of_token (fun _ => VBool true) (option_map (pair tt) (strip_prefix (str "rue") r))
      else if c =? 102 then of_token (fun _ => VBool false) (option_map (pair tt) (strip_prefix (str "alse") r))
      else if c =? 110 then of_token (fun _ => VNull) (option_map (pair tt) (strip_prefix (str "ull") r))
      else PSyntaxError
    end
  end

(** one value, then [,] and the other elements, or the closing bracket *)
with parse_elements (fuel : nat) (s : jsstring) : presult (list value) :=
  match fuel with
  | O => POutOfFuel
  | S fuel =>
    match parse_value fuel s with
    | POk v r =>
      match skip_ws r with
      | [] => PSyntaxError
      | c :: r' =>
        if c =? 93 then POk [v] r'
        else if c =? 44 then
          match parse_elements fuel r' with
          | POk vs rest => POk (v :: vs) rest
          | PSyntaxError => PSyntaxError
          | POutOfFuel => POutOfFuel
          end
        else PSyntaxError
      end
    | PSyntaxError => PSyntaxError
    | POutOfFuel => POutOfFuel
    end
  end

(** one member [string : value], then [,] and the other members, or the
    closing brace *)
with parse_members (fuel : nat) (s : jsstring) : presult (list (jsstring * value)) :=
  match fuel with
  | O => POutOfFuel
  | S fuel =>
    match skip_ws s with
    | [] => PSyntaxError
    | q :: r0 =>
      if q =? 34 then
        match parse_string_chars r0 with
        | None => PSyntaxError
        | Some (k, r1) =>
          match skip_ws r1 with
          | [] => PSyntaxError
          | colon :: r2 =>
            if colon =? 58 then
              match parse_value fuel r2 with
              | POk v r =>
                match skip_ws r with
                | [] => PSyntaxError
                | c :: r' =>
                  if c =? 125 then POk [(k, v)] r'
                  else if c =? 44 then
                    match parse_members fuel r' with
                    | POk ms rest => POk ((k, v) :: ms) rest
                    | PSyntaxError => PSyntaxError
                    | POutOfFuel => POutOfFuel
                    end
                  else PSyntaxError
                end
              | PSyntaxError => PSyntaxError
              | POutOfFuel => POutOfFuel
              end
            else PSyntaxError
          end
        end
      else PSyntaxError
    end
  end.

(** A text of [n] code units holds fewer than [n] nested or following
    values, each of which costs two units of fuel at most. *)
Definition parse_fuel (s : jsstring) : nat := S (2 * length s).

(** The whole text is one value between optional white space. *)
Definition parse_text (s : jsstring) : option value :=
  match parse_value (parse_fuel s) s with
  | POk v rest =>
    match skip_ws rest with
    | [] => Some v
    | _ :: _ => None
    end
  | PSyntaxError | POutOfFuel => None
  end.

Definition JSON_parse (text : value) : completion value :=
  jsonString <- ToString text ;;
  match parse_text jsonString with
  | Some v => Normal v
  | None => Throw SyntaxError
  end.

(** ** safeJSON *)

(** TypeScript's [any]: every value of the model. *)
Definition any := value.

(** src/src/util/safeJSON.ts *)
Module SafeJSON_ts.

Definition safeJSON (value : any) : completion any :=
  try_catch
    (text <- JSON_stringify value ;;
     result <- JSON_parse text ;;
     Normal result)
    (Normal value).

End SafeJSON_ts.

(** src/unnamed/part_000 *)
Module Part_000.

Definition safeJSON (value : any) : completion any :=
  try_catch
    (result <- JSON_parse value ;;
     Normal result)
    (Normal value).

End Part_000.

(** ** Requests, form containers and schemas *)

(** [request.formData()], awaited: the form container, or the reason the
    body could not be read. *)
Record Request := { Request_formData : completion FormData }.

(** The first entry of that name, or [null]. *)
Fixpoint FormData_get (fd : FormData) (name : jsstring) : value :=
  match fd with
  | [] => VNull
  | (k, entry) :: r =>
    if jsstring_eqb name k then
      match entry with
      | EntryString s => VString s
      | EntryFile f => VFile f
      end
    else FormData_get r name
  end.

Inductive SafeParseReturnType :=
| SafeParseSuccess (data : value)
| SafeParseError (error : value).

Record ZodType := { safeParse : value -> SafeParseReturnType }.

(** The own enumerable properties an object spread copies. *)
Definition own_properties (parsed : SafeParseReturnType) : list (jsstring * value) :=
  match parsed with
  | SafeParseSuccess data => [(str "success", VBool true); (str "data", data)]
  | SafeParseError error => [(str "success", VBool false); (str "error", error)]
  end.

(** [parsed.success], and [parsed.data], which a failure does not have *)
Definition get_success (parsed : SafeParseReturnType) : bool :=
  match parsed with
  | SafeParseSuccess _ => true
  | SafeParseError _ => false
  end.

Definition get_data (parsed : SafeParseReturnType) : value :=
  match parsed with
  | SafeParseSuccess d => d
  | SafeParseError _ => VUndefined
  end.

(** ** validateForm *)

(** src/src/util/validateForm.ts; [fullReturn?: boolean] is [None] when
    the caller leaves it out. *)
Module ValidateForm_ts.
Section Imports.

(** The function that [./safeJSON] exports. *)
Variable safeJSON : any -> completion any.

Definition validateForm (request : Request) (schema : ZodType)
    (fullReturn : option bool) : completion value :=
  formData <- Request_formData request ;;
  json <- safeJSON (FormData_get formData (str "data")) ;;
  let parsed := safeParse schema json in
  if match fullReturn with Some b => b | None => false end then
    Normal (VObject (CreateDataProperty (own_properties parsed)
                       (str "formData") (VFormData formData)))
  else
    Normal (if get_success parsed then get_data parsed else VUndefined).

End Imports.
End ValidateForm_ts.

(** The version of validateForm kept in src/src/type/Class.ts, with the
    default [fullReturn = true]. *)
Module Class_ts.
Section Imports.

Variable safeJSON : any -> completion any.

Definition validateForm (request : Request) (schema : ZodType)
    (fullReturn : option bool) : completion value :=
  let fullReturn := match fullReturn with Some b => b | None => true end in
  formData <- Request_formData request ;;
  data <- safeJSON (FormData_get formData (str "data")) ;;
  let parsed := safeParse schema data in
  if fullReturn then
    Normal (VObject (CreateDataProperty (own_properties parsed)
                       (str "formData") (VFormData formData)))
  else
    Normal (if get_success parsed then get_data parsed else VUndefined).

End Imports.
End Class_ts.

(** The module [./safeJSON] exists in two versions. *)
Definition imported_safeJSON (f : any -> completion any) : Prop :=
  f = SafeJSON_ts.safeJSON \/ f = Part_000.safeJSON.

(** ** Sample data *)

(** The JSON text of an object with the one member [id], of value 42,
    and that object. *)
Definition id_42_text : jsstring :=
  str "{" ++ [34] ++ str "id" ++ [34] ++ str ":42}".

Definition id_42 : value := VObject [(str "id", VNumber (Finite 42 0))].

(** An uploaded file, and an object with a member JSON cannot express. *)
Definition upload : File := {| file_name := str "a.txt" |}.

Definition with_undefined_member : value := VObject [(str "a", VUndefined)].

(** [z.any().transform(() => undefined)]: accepts every input, and the
    validated data is [undefined]. *)
Definition accept_as_undefined : ZodType :=
  {| safeParse := fun _ => SafeParseSuccess VUndefined |}.

(** [z.never()]: rejects every input. *)
Definition reject_all : ZodType :=
  {| safeParse := fun _ => SafeParseError (VObject [(str "issues", VArray [])]) |}.

(** [z.any()]: accepts every input as it is. *)
Definition accept_any : ZodType :=
  {| safeParse := fun v => SafeParseSuccess v |}.

(** A request whose form container has the one field [data], holding
    that text. *)
Definition id_42_request : Request :=
  {| Request_formData := Normal [(str "data", EntryString id_42_text)] |}.

(** A request whose form container has no field [data]. *)
Definition no_data_request : Request :=
  {| Request_formData := Normal [(str "name", EntryString (str "x"))] |}.

(** A request whose body cannot be read. *)
Definition broken_request : Request :=
  {| Request_formData := Throw TypeError |}.

(** ** Values that JSON can express *)

(** A finite number in canonical form: zero is [0 * 10^0], and the
    decimal expansion of any other mantissa does not end in [0]. *)
Definition json_number (x : number) : bool :=
  match x with
  | Finite m e =>
    if (m =? 0)%Z then (e =? 0)%Z
    else negb (last (digits (Z.abs_N m)) 0 =? 48)
  | _ => false
  end.

(** Keys that are not array indices, each listed once. *)
Fixpoint names_in_order (keys : list jsstring) : bool :=
  match keys with
  | [] => true
  | k :: r =>
    match array_index k with
    | Some _ => false
    | None => negb (existsb (jsstring_eqb k) r) && names_in_order r
    end
  end.

(** Array indices from [bound] on in ascending order, then the other keys. *)
Fixpoint indices_then_names (bound : N) (keys : list jsstring) : bool :=
  match keys with
  | [] => true
  | k :: r =>
    match array_index k with
    | Some i => (bound <=? i) && indices_then_names (i + 1) r
    | None => names_in_order keys
    end
  end.

(** The order in which an ordinary object lists its own property keys. *)
Definition property_order (keys : list jsstring) : bool :=
  indices_then_names 0 keys.

(** Null, booleans, strings, finite numbers, and arrays and ordinary
    objects made of these. *)
Fixpoint json_serializable (v : value) : bool :=
  match v with
  | VNull | VBool _ | VString _ => true
  | VNumber n => json_number n
  | VArray l => forallb json_serializable l
  | VObject props =>
    property_order (map fst props) &&
    forallb (fun p => json_serializable (snd p)) props
  | _ => false
  end.

(** What may follow a number token. *)
Definition delimited (rest : jsstring) : bool :=
  match rest with
  | [] => true
  | c :: _ => negb (is_digit c || (c =? 46) || (c =? 101) || (c =? 69))
  end.

Definition nondigit_start (rest : jsstring) : bool :=
  match rest with
  | [] => true
  | c :: _ => negb (is_digit c)
  end.

(** The loop of SerializeJSONArray and the loop of SerializeJSONObject. *)
Definition serialize_elements : list value -> completion (list jsstring) :=
  fix elements (l : list value) : completion (list jsstring) :=
    match l with
    | [] => Normal []
    | x :: r =>
      strP <- SerializeJSONProperty x ;;
      rest <- elements r ;;
      Normal (match strP with
              | Some t => t
              | None => str "null"
              end :: rest)
    end.

Definition serialize_members : list (jsstring * value) -> completion (list jsstring) :=
  fix members (l : list (jsstring * value)) : completion (list jsstring) :=
    match l with
    | [] => Normal []
    | (P, x) :: r =>
      strP <- SerializeJSONProperty x ;;
      rest <- members r ;;
      Normal (match strP with
              | Some t => (QuoteJSONString P ++ 58 :: t) :: rest
              | None => rest
              end)
    end.

(** The first code unit of a JSON value. *)
Definition value_start (c : N) : bool :=
  (c =? 123) || (c =? 91) || (c =? 34) || (c =? 45) || is_digit c
  || (c =? 116) || (c =? 102) || (c =? 110).

(** With fuel enough, the text of [v] followed by [rest] reads back as
    [v] and leaves [rest]. *)
Definition reads_back (v : value) : Prop :=
  forall text, SerializeJSONProperty v = Normal (Some text) ->
  exists fuel0, forall fuel rest,
    (fuel0 <= fuel)%nat -> delimited rest = true ->
    parse_value fuel (text ++ rest) = POk v rest.

(** The number of nodes of a value. *)
Fixpoint value_size (v : value) : nat :=
  match v with
  | VArray l => S (list_sum (map value_size l))
  | VObject props => S (list_sum (map (fun p => value_size (snd p)) props))
  | _ => 1
  end.

(** ** Classes of inputs *)

(** [JSON.parse] accepts the value, converted to a string. *)
Definition accepted_by_parse (v : value) : bool :=
  match JSON_parse v with
  | Normal _ => true
  | Throw _ => false
  end.

(** The inputs on which the two versions of safeJSON are compared:
    [undefined], [null], booleans, symbols, finite numbers, and the
    strings, arrays and ordinary objects that JSON can express and that
    [JSON.parse] rejects. *)
Definition same_result_input (v : value) : bool :=
  match v with
  | VUndefined | VNull | VBool _ | VSymbol _ => true
  | VNumber n => is_finite n
  | VString _ | VArray _ | VObject _ =>
    json_serializable v && negb (accepted_by_parse v)
  | _ => false
  end.



(** ** The JSON equivalent of a value *)

(** A BigInt, at any depth. *)
Fixpoint contains_bigint (v : value) : bool :=
  match v with
  | VBigInt _ => true
  | VArray l => existsb contains_bigint l
  | VObject props => existsb (fun p => contains_bigint (snd p)) props
  | _ => false
  end.

(** Values as the run-time holds them: finite numbers in canonical form
    and the properties of every object in property order. *)
Fixpoint well_formed (v : value) : bool :=
  match v with
  | VNumber n => negb (is_finite n) || json_number n
  | VArray l => forallb well_formed l
  | VObject props =>
    property_order (map fst props) &&
    forallb (fun p => well_formed (snd p)) props
  | _ => true
  end.

(** What is left of a value that holds no BigInt after a passage through
    JSON text; [None] when nothing is.  A number that is not finite
    becomes [null]; an array element with no equivalent becomes [null];
    an object member with no equivalent is left out; a host object
    becomes an empty object. *)
Fixpoint json_equivalent (v : value) : option value :=
  match v with
  | VUndefined | VSymbol _ | VBigInt _ => None
  | VNull | VBool _ | VString _ => Some v
  | VNumber n => Some (if is_finite n then v else VNull)
  | VArray l =>
    Some (VArray (map (fun x => match json_equivalent x with
                                | Some y => y
                                | None => VNull
                                end) l))
  | VObject props =>
    Some (VObject ((fix members (l : list (jsstring * value)) :=
                      match l with
                      | [] => []
                      | (k, x) :: r =>
                        match json_equivalent x with
                        | Some y => (k, y) :: members r
                        | None => members r
                        end
                      end) props))
  | VFile _ | VFormData _ => Some (VObject [])
  end.

(** The element of an array, and the members of an object, after that
    passage. *)
Definition equivalent_or_null (v : value) : value :=
  match json_equivalent v with
  | Some y => y
  | None => VNull
  end.

Definition equivalent_members : list (jsstring * value) -> list (jsstring * value) :=
  fix members (l : list (jsstring * value)) :=
    match l with
    | [] => []
    | (k, x) :: r =>
      match json_equivalent x with
      | Some y => (k, y) :: members r
      | None => members r
      end
    end.

(** A tree of [null], booleans, strings, numbers of any value, arrays
    and ordinary objects with their properties in order. *)
Fixpoint json_shaped (v : value) : bool :=
  match v with
  | VNull | VBool _ | VString _ | VNumber _ => true
  | VArray l => forallb json_shaped l
  | VObject props =>
    property_order (map fst props) &&
    forallb (fun p => json_shaped (snd p)) props
  | _ => false
  end.


(** ** The two shapes of a result *)

(** The answer of validateForm for an outcome of the schema: the
    outcome and the form container in full mode, the validated data or
    [undefined] in minimal mode. *)
Definition shaped (fullReturn : bool) (formData : FormData)
    (parsed : SafeParseReturnType) : value :=
  if fullReturn then
    VObject (own_properties parsed ++ [(str "formData", VFormData formData)])
  else if get_success parsed then get_data parsed else VUndefined.

(** [z.object({...})], whatever its members: a string is no object. *)
Definition rejects_strings (schema : ZodType) : Prop :=
  forall s, get_success (safeParse schema (VString s)) = false.

(** A schema that accepts objects only, with the error it reports left
    open. *)
Definition objects_only : ZodType :=
  {| safeParse := fun v =>
       match v with
       | VObject _ => SafeParseSuccess v
       | _ => SafeParseError (VObject [(str "issues", VArray [])])
       end |}.

(** ** More sample data *)

(** An object with members of several kinds. *)
Definition mixed : value :=
  VObject [(str "1", VArray [VUndefined; VNumber NaN; VFile upload]);
           (str "a", VSymbol (str "s"));
           (str "b", VNumber (Finite 15 (-1)))].

(** A request whose field [data] is an uploaded file. *)
Definition upload_request : Request :=
  {| Request_formData := Normal [(str "data", EntryFile upload)] |}.

(** A form container with other fields around the first field [data]. *)
Definition crowded_form : FormData :=
  [(str "name", EntryString (str "x"));
   (str "data", EntryString id_42_text);
   (str "data", EntryString (str "second"))].

(** [undefined] and [null], which [Array.prototype.join] prints as
    nothing. *)
Definition is_nullish (v : value) : bool :=
  match v with
  | VUndefined | VNull => true
  | _ => false
  end.

(** * Properties *)

(** ** Quoting and reading back a string *)

Lemma hex_value_hex_char d : d < 16 -> hex_value (hex_char d) = Some d.
Proof.
  intros Hd. unfold hex_char, hex_value, is_digit.
  destruct (N.ltb_spec d 10).
  - replace ((48 <=? 48 + d) && (48 + d <=? 57)) with true.
    + f_equal. lia.
    + symmetry. apply andb_true_iff. split; apply N.leb_le; lia.
  - replace ((48 <=? 87 + d) && (87 + d <=? 57)) with false.
    + replace ((97 <=? 87 + d) && (87 + d <=? 102)) with true.
      * f_equal. lia.
      * symmetry. apply andb_true_iff. split; apply N.leb_le; lia.
    + symmetry. apply andb_false_iff. right. apply N.leb_gt. lia.
Qed.

Lemma hex4_digits c :
  c < 65536 ->
  hex4 (hex_char (c / 4096)) (hex_char ((c / 256) mod 16))
       (hex_char ((c / 16) mod 16)) (hex_char (c mod 16)) = Some c.
Proof.
  intros Hc. unfold hex4.
  rewrite !hex_value_hex_char.
  - f_equal. 
    Zify.zify. Z.to_euclidean_division_equations. lia.
  - apply N.mod_lt. lia.
  - apply N.mod_lt. lia.
  - apply N.mod_lt. lia.
  - apply N.Div0.div_lt_upper_bound. lia.
Qed.

Ltac case_eqb :=
  match goal with
  | |- context [N.eqb ?a ?b] => destruct (N.eqb_spec a b); try lia
  | |- context [N.ltb ?a ?b] => destruct (N.ltb_spec a b); try lia
  | |- context [N.leb ?a ?b] => destruct (N.leb_spec a b); try lia
  end.

Lemma parse_unicode_escape c rest :
  c < 65536 ->
  parse_string_chars (UnicodeEscape c ++ rest) = cons_unit c (parse_string_chars rest).
Proof.
  intros Hc. unfold UnicodeEscape. cbn [app parse_string_chars].
  change (92 =? 34) with false. change (92 =? 92) with true.
  change (117 =? 117) with true. cbv iota.
  now rewrite hex4_digits.
Qed.

Lemma parse_plain_unit c rest :
  c <> 34 -> c <> 92 -> 32 <= c ->
  parse_string_chars (c :: rest) = cons_unit c (parse_string_chars rest).
Proof.
  intros. cbn [parse_string_chars]. repeat case_eqb. reflexivity.
Qed.

Lemma parse_quote_unit c rest :
  parse_string_chars (quote_unit c ++ rest) = cons_unit c (parse_string_chars rest).
Proof.
  unfold quote_unit.
  repeat (case_eqb; [subst; reflexivity|]).
  destruct ((c <? 32) || is_leading_surrogate c || is_trailing_surrogate c) eqn:E.
  - apply parse_unicode_escape.
    unfold is_leading_surrogate, is_trailing_surrogate in E.
    rewrite !orb_true_iff, !andb_true_iff, N.ltb_lt, !N.leb_le in E. lia.
  - rewrite !orb_false_iff in E. destruct E as [[E _] _].
    apply N.ltb_ge in E. now apply parse_plain_unit.
Qed.

Lemma parse_quote_chars_bounded n : forall s rest,
  (length s <= n)%nat ->
  parse_string_chars (quote_chars s ++ 34 :: rest) = Some (s, rest).
Proof.
  induction n as [|n IH]; intros s rest Hn.
  - destruct s; [reflexivity | simpl in Hn; lia].
  - destruct s as [|c r]; [reflexivity|].
    simpl in Hn. cbn [quote_chars].
    destruct (is_leading_surrogate c) eqn:Hlead.
    + assert (Hc : 55296 <= c <= 56319).
      { unfold is_leading_surrogate in Hlead.
        rewrite andb_true_iff, !N.leb_le in Hlead. exact Hlead. }
      destruct r as [|d r'].
      * rewrite parse_unicode_escape by lia. reflexivity.
      * destruct (is_trailing_surrogate d) eqn:Htrail.
        -- assert (Hd : 56320 <= d <= 57343).
           { unfold is_trailing_surrogate in Htrail.
             rewrite andb_true_iff, !N.leb_le in Htrail. exact Htrail. }
           cbn [app]. rewrite !parse_plain_unit by lia.
           rewrite IH by (simpl in Hn; lia). reflexivity.
        -- rewrite <- app_assoc, parse_unicode_escape by lia.
           rewrite IH by lia. reflexivity.
    + rewrite <- app_assoc, parse_quote_unit, IH by lia. reflexivity.
Qed.

Lemma parse_quote_chars s rest :
  parse_string_chars (quote_chars s ++ 34 :: rest) = Some (s, rest).
Proof. now apply (parse_quote_chars_bounded (length s)). Qed.

Lemma parse_text_QuoteJSONString s :
  parse_text (QuoteJSONString s) = Some (VString s).
Proof.
  unfold parse_text, parse_fuel, QuoteJSONString.
  cbn [parse_value skip_ws is_whitespace].
  change [34] with ([34] ++ []) at 2.
  cbn. rewrite parse_quote_chars. reflexivity.
Qed.

Lemma safeJSON_ts_string s :
  SafeJSON_ts.safeJSON (VString s) = Normal (VString s).
Proof.
  unfold SafeJSON_ts.safeJSON, JSON_stringify, JSON_parse.
  cbn [SerializeJSONProperty ToString try_catch].
  now rewrite parse_text_QuoteJSONString.
Qed.

(** ** What a token consumes *)

Lemma skip_ws_length s : (length (skip_ws s) <= length s)%nat.
Proof.
  induction s as [|c r IH]; simpl; [lia|].
  destruct (is_whitespace c); simpl; lia.
Qed.

Lemma strip_prefix_length p : forall s rest,
  strip_prefix p s = Some rest -> (length rest <= length s)%nat.
Proof.
  induction p as [|a p IH]; intros s rest H; simpl in H.
  - injection H as <-. lia.
  - destruct s as [|b s]; [discriminate|].
    destruct (a =? b); [|discriminate].
    apply IH in H. simpl. lia.
Qed.

Lemma span_digits_length s : forall d rest,
  span_digits s = (d, rest) -> (length d + length rest = length s)%nat.
Proof.
  induction s as [|c r IH]; intros d rest H; simpl in H.
  - injection H as <- <-. reflexivity.
  - destruct (is_digit c).
    + destruct (span_digits r) as [d' rest'] eqn:E.
      injection H as <- <-. specialize (IH _ _ eq_refl). simpl. lia.
    + injection H as <- <-. reflexivity.
Qed.

Lemma cons_unit_Some c r t rest :
  cons_unit c r = Some (t, rest) ->
  exists t', t = c :: t' /\ r = Some (t', rest).
Proof.
  destruct r as [[t' rest']|]; simpl; [|discriminate].
  intros H. injection H as <- <-. eauto.
Qed.

Lemma parse_string_chars_length_bounded n : forall s t rest,
  (length s <= n)%nat ->
  parse_string_chars s = Some (t, rest) ->
  (length t + length rest < length s)%nat.
Proof.
  induction n as [|n IH]; intros s t rest Hn H.
  - destruct s; [discriminate | simpl in Hn; lia].
  - destruct s as [|c r]; [discriminate|].
    simpl in Hn. cbn [parse_string_chars] in H.
    destruct (c =? 34).
    { injection H as <- <-. simpl. lia. }
    destruct (c =? 92).
    + destruct r as [|e r1]; [discriminate|].
      destruct (e =? 117).
      * destruct r1 as [|h1 [|h2 [|h3 [|h4 r2]]]]; try discriminate.
        destruct (hex4 h1 h2 h3 h4); [|discriminate].
        apply cons_unit_Some in H as (t' & -> & H).
        apply IH in H; simpl in *; lia.
      * destruct (escape_unit e); [|discriminate].
        apply cons_unit_Some in H as (t' & -> & H).
        apply IH in H; simpl in *; lia.
    + destruct (c <? 32); [discriminate|].
      apply cons_unit_Some in H as (t' & -> & H).
      apply IH in H; simpl in *; lia.
Qed.

Lemma parse_string_chars_length s t rest :
  parse_string_chars s = Some (t, rest) ->
  (length t + length rest < length s)%nat.
Proof. now apply (parse_string_chars_length_bounded (length s)). Qed.

Lemma parse_int_part_length s i rest :
  parse_int_part s = Some (i, rest) -> (length rest < length s)%nat.
Proof.
  unfold parse_int_part. destruct s as [|c r]; [discriminate|].
  destruct (c =? 48).
  - intros H; injection H as <- <-. simpl; lia.
  - destruct (is_digit c); [|discriminate].
    destruct (span_digits r) as [d rest'] eqn:E.
    intros H; injection H as <- <-.
    apply span_digits_length in E. simpl; lia.
Qed.

Lemma parse_fraction_length s f rest :
  parse_fraction s = Some (f, rest) -> (length rest <= length s)%nat.
Proof.
  unfold parse_fraction.
  destruct s as [|c r]; [intros H; injection H as <- <-; lia|].
  destruct (c =? 46).
  - destruct (span_digits r) as [d rest'] eqn:E.
    apply span_digits_length in E.
    destruct d; [discriminate|].
    intros H; injection H as <- <-. simpl in *; lia.
  - intros H; injection H as <- <-. lia.
Qed.

Lemma parse_exponent_length s x rest :
  parse_exponent s = Some (x, rest) -> (length rest <= length s)%nat.
Proof.
  unfold parse_exponent.
  destruct s as [|c r]; [intros H; injection H as <- <-; lia|].
  destruct ((c =? 101) || (c =? 69)).
  - match goal with
    | |- context [let '(_, _) := ?p in _] =>
      assert (Hp : (length (snd p) <= length r)%nat);
      [|destruct p as [neg r1]]
    end.
    { destruct r as [|a r']; [simpl; lia|].
      destruct (a =? 43); [simpl; lia|].
      destruct (a =? 45); simpl; lia. }
    simpl in Hp.
    destruct (span_digits r1) as [d rest'] eqn:E.
    apply span_digits_length in E.
    destruct d; [discriminate|].
    intros H; injection H as <- <-. simpl in *; lia.
  - intros H; injection H as <- <-. lia.
Qed.

Lemma parse_unsigned_length negative s n rest :
  parse_unsigned negative s = Some (n, rest) -> (length rest < length s)%nat.
Proof.
  unfold parse_unsigned.
  destruct (parse_int_part s) as [[i s2]|] eqn:E1; [|discriminate].
  destruct (parse_fraction s2) as [[f s3]|] eqn:E2; [|discriminate].
  destruct (parse_exponent s3) as [[x s4]|] eqn:E3; [|discriminate].
  intros H; injection H as <- <-.
  apply parse_int_part_length in E1. apply parse_fraction_length in E2.
  apply parse_exponent_length in E3. lia.
Qed.

Lemma parse_number_length s n rest :
  parse_number s = Some (n, rest) -> (length rest < length s)%nat.
Proof.
  unfold parse_number. destruct s as [|c r]; [discriminate|].
  destruct (c =? 45); intros H; apply parse_unsigned_length in H; simpl in *; lia.
Qed.

(** ** The fuel of the parser *)

Lemma of_token_POk {A} (make : A -> value) r v rest :
  of_token make r = POk v rest -> exists a, r = Some (a, rest) /\ v = make a.
Proof.
  destruct r as [[a rest']|]; simpl; [|discriminate].
  intros H. injection H as <- <-. eauto.
Qed.

Lemma of_token_fuel {A} (make : A -> value) r :
  of_token make r <> POutOfFuel.
Proof. destruct r as [[a rest]|]; discriminate. Qed.

Lemma literal_length p s (u : unit) rest :
  option_map (pair tt) (strip_prefix p s) = Some (u, rest) ->
  (length rest <= length s)%nat.
Proof.
  destruct (strip_prefix p s) as [rest'|] eqn:E; [|discriminate].
  intros H. injection H as _ <-. now apply strip_prefix_length in E.
Qed.

Ltac split_if H :=
  match type of H with
  | (if ?b then _ else _) = _ => destruct b
  end.

Ltac parse_step H :=
  match type of H with
  | match skip_ws ?s with _ => _ end = _ =>
    let E := fresh "Ews" in
    pose proof (skip_ws_length s);
    destruct (skip_ws s) eqn:E; [discriminate H|]
  | match parse_value ?f ?s with _ => _ end = _ =>
    let E := fresh "Ev" in destruct (parse_value f s) eqn:E; try discriminate H
  | match parse_elements ?f ?s with _ => _ end = _ =>
    let E := fresh "Ee" in destruct (parse_elements f s) eqn:E; try discriminate H
  | match parse_members ?f ?s with _ => _ end = _ =>
    let E := fresh "Em" in destruct (parse_members f s) eqn:E; try discriminate H
  | match parse_string_chars ?s with _ => _ end = _ =>
    let E := fresh "Es" in
    destruct (parse_string_chars s) as [[? ?]|] eqn:E; [|discriminate H]
  end.

Lemma parse_length fuel :
  (forall s v rest, parse_value fuel s = POk v rest -> (length rest < length s)%nat) /\
  (forall s vs rest, parse_elements fuel s = POk vs rest -> (length rest < length s)%nat) /\
  (forall s ms rest, parse_members fuel s = POk ms rest -> (length rest < length s)%nat).
Proof.
  induction fuel as [|fuel (IHv & IHe & IHm)]; [repeat split; discriminate|].
  repeat split.
  - intros s v rest H. cbn [parse_value] in H. parse_step H.
    split_if H.
    { parse_step H. split_if H.
      - injection H as _ <-. simpl in *; lia.
      - parse_step H. injection H as _ <-. apply IHm in Em. simpl in *; lia. }
    split_if H.
    { parse_step H. split_if H.
      - injection H as _ <-. simpl in *; lia.
      - parse_step H. injection H as _ <-. apply IHe in Ee. simpl in *; lia. }
    split_if H.
    { apply of_token_POk in H as (t & H & _).
      apply parse_string_chars_length in H. simpl in *; lia. }
    split_if H.
    { apply of_token_POk in H as (t & H & _).
      apply parse_number_length in H. simpl in *; lia. }
    split_if H.
    { apply of_token_POk in H as (t & H & _).
      apply literal_length in H. simpl in *; lia. }
    split_if H.
    { apply of_token_POk in H as (t & H & _).
      apply literal_length in H. simpl in *; lia. }
    split_if H; [|discriminate].
    apply of_token_POk in H as (t & H & _).
    apply literal_length in H. simpl in *; lia.
  - intros s vs rest H. cbn [parse_elements] in H.
    parse_step H. apply IHv in Ev. parse_step H.
    split_if H.
    { injection H as _ <-. simpl in *; lia. }
    split_if H; [|discriminate].
    parse_step H. injection H as _ <-. apply IHe in Ee. simpl in *; lia.
  - intros s ms rest H. cbn [parse_members] in H.
    parse_step H. split_if H; [|discriminate].
    parse_step H. apply parse_string_chars_length in Es.
    parse_step H. split_if H; [|discriminate].
    parse_step H. apply IHv in Ev. parse_step H.
    split_if H.
    { injection H as _ <-. simpl in *; lia. }
    split_if H; [|discriminate].
    parse_step H. injection H as _ <-. apply IHm in Em. simpl in *; lia.
Qed.

Lemma parse_enough_fuel fuel :
  (forall s, (2 * length s < fuel)%nat -> parse_value fuel s <> POutOfFuel) /\
  (forall s, (2 * length s + 1 < fuel)%nat -> parse_elements fuel s <> POutOfFuel) /\
  (forall s, (2 * length s + 1 < fuel)%nat -> parse_members fuel s <> POutOfFuel).
Proof.
  induction fuel as [|fuel (IHv & IHe & IHm)]; [repeat split; intros; lia|].
  repeat split.
  - intros s Hs H. cbn [parse_value] in H. parse_step H.
    split_if H.
    { parse_step H. split_if H; [discriminate|].
      parse_step H. revert Em. apply IHm. simpl in *; lia. }
    split_if H.
    { parse_step H. split_if H; [discriminate|].
      parse_step H. revert Ee. apply IHe. simpl in *; lia. }
    repeat match type of H with
           | (if ?b then _ else _) = _ => destruct b
           end;
      solve [discriminate H | exact (of_token_fuel _ _ H)].
  - intros s Hs H. cbn [parse_elements] in H.
    parse_step H. 2:{ revert Ev. apply IHv. lia. }
    apply parse_length in Ev. parse_step H.
    split_if H; [discriminate|].
    split_if H; [|discriminate].
    parse_step H. revert Ee. apply IHe. simpl in *; lia.
  - intros s Hs H. cbn [parse_members] in H.
    parse_step H. split_if H; [|discriminate].
    parse_step H. apply parse_string_chars_length in Es.
    parse_step H. split_if H; [|discriminate].
    parse_step H. 2:{ revert Ev. apply IHv. simpl in *; lia. }
    apply parse_length in Ev. parse_step H.
    split_if H; [discriminate|].
    split_if H; [|discriminate].
    parse_step H. revert Em. apply IHm. simpl in *; lia.
Qed.

Lemma parse_value_terminates s : parse_value (parse_fuel s) s <> POutOfFuel.
Proof. apply parse_enough_fuel. unfold parse_fuel. lia. Qed.

(** More fuel does not change a result. *)
Lemma parse_fuel_mono fuel :
  (forall s r, parse_value fuel s = r -> r <> POutOfFuel ->
     forall fuel', (fuel <= fuel')%nat -> parse_value fuel' s = r) /\
  (forall s r, parse_elements fuel s = r -> r <> POutOfFuel ->
     forall fuel', (fuel <= fuel')%nat -> parse_elements fuel' s = r) /\
  (forall s r, parse_members fuel s = r -> r <> POutOfFuel ->
     forall fuel', (fuel <= fuel')%nat -> parse_members fuel' s = r).
Proof.
  induction fuel as [|fuel (IHv & IHe & IHm)];
    [repeat split; intros s r <-; simpl; congruence|].
  repeat split; intros s r <- Hr [|fuel'] Hle; try lia.
  - cbn [parse_value] in *.
    destruct (skip_ws s) as [|c t]; [reflexivity|].
    destruct (c =? 123).
    { destruct (skip_ws t) as [|c' t']; [reflexivity|].
      destruct (c' =? 125); [reflexivity|].
      rewrite (IHm (c' :: t') _ eq_refl) with (fuel' := fuel'); try lia; [reflexivity|].
      destruct (parse_members fuel (c' :: t')); congruence. }
    destruct (c =? 91); [|reflexivity].
    destruct (skip_ws t) as [|c' t']; [reflexivity|].
    destruct (c' =? 93); [reflexivity|].
    rewrite (IHe (c' :: t') _ eq_refl) with (fuel' := fuel'); try lia; [reflexivity|].
    destruct (parse_elements fuel (c' :: t')); congruence.
  - cbn [parse_elements] in *.
    rewrite (IHv s _ eq_refl) with (fuel' := fuel'); try lia.
    2:{ destruct (parse_value fuel s); congruence. }
    destruct (parse_value fuel s) as [v t| |]; try reflexivity.
    destruct (skip_ws t) as [|c t']; [reflexivity|].
    destruct (c =? 93); [reflexivity|].
    destruct (c =? 44); [|reflexivity].
    rewrite (IHe t' _ eq_refl) with (fuel' := fuel'); try lia; [reflexivity|].
    destruct (parse_elements fuel t'); congruence.
  - cbn [parse_members] in *.
    destruct (skip_ws s) as [|q t0]; [reflexivity|].
    destruct (q =? 34); [|reflexivity].
    destruct (parse_string_chars t0) as [[k t1]|]; [|reflexivity].
    destruct (skip_ws t1) as [|colon t2]; [reflexivity|].
    destruct (colon =? 58); [|reflexivity].
    rewrite (IHv t2 _ eq_refl) with (fuel' := fuel'); try lia.
    2:{ destruct (parse_value fuel t2); congruence. }
    destruct (parse_value fuel t2) as [v t| |]; try reflexivity.
    destruct (skip_ws t) as [|c t']; [reflexivity|].
    destruct (c =? 125); [reflexivity|].
    destruct (c =? 44); [|reflexivity].
    rewrite (IHm t' _ eq_refl) with (fuel' := fuel'); try lia; [reflexivity|].
    destruct (parse_members fuel t'); congruence.
Qed.

(** ** Induction on values *)

Lemma value_ind (P : value -> Prop) :
  P VUndefined -> P VNull -> (forall b, P (VBool b)) ->
  (forall n, P (VNumber n)) -> (forall z, P (VBigInt z)) ->
  (forall s, P (VString s)) -> (forall d, P (VSymbol d)) ->
  (forall l, Forall P l -> P (VArray l)) ->
  (forall props, Forall (fun p => P (snd p)) props -> P (VObject props)) ->
  (forall f, P (VFile f)) -> (forall fd, P (VFormData fd)) ->
  forall v, P v.
Proof.
  intros Hu Hn Hb Hnum Hbig Hs Hsym Ha Ho Hf Hfd.
  fix IH 1.
  intros [| |b|n|z|s|d|l|props|f|fd];
    [apply Hu | apply Hn | apply Hb | apply Hnum | apply Hbig | apply Hs
    | apply Hsym | apply Ha | apply Ho | apply Hf | apply Hfd].
  - induction l as [|x l IHl]; constructor; [apply IH | exact IHl].
  - induction props as [|[k x] props IHl]; constructor; [apply IH | exact IHl].
Qed.

(** ** Property order *)

Lemma jsstring_eqb_eq a b : jsstring_eqb a b = true <-> a = b.
Proof.
  revert b. induction a as [|x a IH]; intros [|y b]; simpl;
    try (split; [discriminate | congruence]); [tauto|].
  rewrite andb_true_iff, N.eqb_eq, IH. split; [intros [-> ->] | intros [= -> ->]]; auto.
Qed.

Lemma has_key_false {A} k (props : list (jsstring * A)) :
  has_key k props = false <-> ~ In k (map fst props).
Proof.
  induction props as [|[k' v] props IH]; simpl; [tauto|].
  rewrite orb_false_iff, IH. split.
  - intros [Hk Hn] [->|Hin]; [|tauto].
    assert (jsstring_eqb k k = true) by now apply jsstring_eqb_eq. congruence.
  - intros H. split; [|tauto].
    destruct (jsstring_eqb k k') eqn:E; [|reflexivity].
    apply jsstring_eqb_eq in E. subst. tauto.
Qed.

Lemma insert_index_last {A} i k (v : A) props :
  (forall k', In k' (map fst props) -> exists j, array_index k' = Some j /\ j < i) ->
  insert_index i k v props = props ++ [(k, v)].
Proof.
  induction props as [|[k' v'] props IH]; simpl; intros H; [reflexivity|].
  destruct (H k' (or_introl eq_refl)) as (j & -> & Hj).
  apply N.ltb_lt in Hj. rewrite Hj. f_equal. apply IH. auto.
Qed.

Lemma create_names {A} (suffix : list (jsstring * A)) : forall prefix,
  names_in_order (map fst suffix) = true ->
  (forall k, In k (map fst suffix) -> has_key k prefix = false) ->
  fold_left (fun props m => CreateDataProperty props (fst m) (snd m)) suffix prefix
  = prefix ++ suffix.
Proof.
  induction suffix as [|[k v] suffix IH]; simpl; intros prefix Hn Hfresh.
  - now rewrite app_nil_r.
  - destruct (array_index k) eqn:Ek; [discriminate|].
    apply andb_true_iff in Hn as [Hk Hn].
    unfold CreateDataProperty at 2. simpl.
    rewrite (Hfresh k (or_introl eq_refl)), Ek.
    rewrite IH; [now rewrite <- app_assoc | exact Hn |].
    intros k' Hin. apply has_key_false. rewrite map_app, in_app_iff. simpl.
    intros [Hp | [<- | []]].
    + revert Hp. apply has_key_false. auto.
    + apply negb_true_iff in Hk. 
      assert (existsb (jsstring_eqb k) (map fst suffix) = true); [|congruence].
      apply existsb_exists. exists k. split; [exact Hin | now apply jsstring_eqb_eq].
Qed.

Lemma names_in_order_no_index keys k :
  names_in_order keys = true -> In k keys -> array_index k = None.
Proof.
  induction keys as [|k' keys IH]; simpl; [tauto|].
  destruct (array_index k') eqn:E; [discriminate|].
  rewrite andb_true_iff. intros [_ Hn] [<- | Hin]; auto.
Qed.

Lemma create_indices {A} (suffix : list (jsstring * A)) : forall prefix bound,
  indices_then_names bound (map fst suffix) = true ->
  (forall k, In k (map fst prefix) -> exists j, array_index k = Some j /\ j < bound) ->
  fold_left (fun props m => CreateDataProperty props (fst m) (snd m)) suffix prefix
  = prefix ++ suffix.
Proof.
  induction suffix as [|[k v] suffix IH]; intros prefix bound Hord Hpre.
  - simpl. now rewrite app_nil_r.
  - cbn [map fst indices_then_names] in Hord.
    destruct (array_index k) as [i|] eqn:Ek.
    + apply andb_true_iff in Hord as [Hb Hord]. apply N.leb_le in Hb.
      cbn [fold_left fst snd]. unfold CreateDataProperty at 2.
      assert (Hfresh : has_key k prefix = false).
      { apply has_key_false. intros Hin.
        destruct (Hpre k Hin) as (j & Hj & Hlt). rewrite Ek in Hj.
        injection Hj as <-. lia. }
      rewrite Hfresh, Ek, insert_index_last.
      * rewrite (IH _ (i + 1)); [now rewrite <- app_assoc | exact Hord |].
        intros k' Hin. rewrite map_app, in_app_iff in Hin. simpl in Hin.
        destruct Hin as [Hin | [<- | []]].
        -- destruct (Hpre k' Hin) as (j & Hj & Hlt). exists j. split; [exact Hj | lia].
        -- exists i. split; [exact Ek | lia].
      * intros k' Hin. destruct (Hpre k' Hin) as (j & Hj & Hlt).
        exists j. split; [exact Hj | lia].
    + apply create_names; [exact Hord|].
      intros k' Hin. apply has_key_false. intros Hp.
      destruct (Hpre k' Hp) as (j & Hj & _).
      rewrite (names_in_order_no_index _ _ Hord Hin) in Hj. discriminate.
Qed.

Lemma object_of_members_in_order members :
  property_order (map fst members) = true ->
  object_of_members members = VObject members.
Proof.
  intros H. unfold object_of_members. f_equal.
  rewrite (create_indices members [] 0 H); [reflexivity|].
  intros k [].
Qed.

(** ** Decimal digits *)

Lemma uint_chars_digits u : forallb is_digit (uint_chars u) = true.
Proof. induction u; simpl; auto. Qed.

Lemma chars_uint_uint_chars u : chars_uint (uint_chars u) = u.
Proof. induction u; simpl; congruence. Qed.

Lemma digits_value_digits n : digits_value (digits n) = n.
Proof.
  unfold digits_value, digits. rewrite chars_uint_uint_chars.
  apply Unsigned.of_to.
Qed.

Lemma digits_are_digits n : forallb is_digit (digits n) = true.
Proof. apply uint_chars_digits. Qed.

Lemma to_uint_unorm n : N.to_uint n = unorm (N.to_uint n).
Proof. now rewrite <- Unsigned.to_of, Unsigned.of_to. Qed.

Lemma digits_nonempty n : digits n <> [].
Proof.
  unfold digits. pose proof (unorm_nonnil (N.to_uint n)) as H.
  rewrite <- to_uint_unorm in H. destruct (N.to_uint n); simpl; congruence.
Qed.

Lemma digits_head n c r : n <> 0 -> digits n = c :: r -> c <> 48.
Proof.
  unfold digits. intros Hn H ->.
  destruct (N.to_uint n) as [|u| | | | | | | | |] eqn:E; try discriminate.
  pose proof (to_uint_unorm n) as Hu. rewrite E in Hu.
  rewrite unorm_D0 in Hu. unfold unorm in Hu.
  destruct (nzhead u) eqn:Ez; try discriminate Hu.
  - injection Hu as ->. apply Hn.
    rewrite <- (Unsigned.of_to n), E. reflexivity.
  - now apply nzhead_nonzero in Ez.
Qed.

Lemma digits_value_zeros j s :
  digits_value (repeat 48 j ++ s) = digits_value s.
Proof. induction j as [|j IH]; [reflexivity | exact IH]. Qed.

Lemma delimited_nondigit rest : delimited rest = true -> nondigit_start rest = true.
Proof.
  destruct rest as [|c r]; simpl; [reflexivity|].
  rewrite !negb_true_iff, !orb_false_iff. tauto.
Qed.

Lemma span_digits_app d rest :
  forallb is_digit d = true -> nondigit_start rest = true ->
  span_digits (d ++ rest) = (d, rest).
Proof.
  intros Hd Hr. induction d as [|c d IH]; cbn [app span_digits forallb] in *.
  - destruct rest as [|c r]; [reflexivity|]. cbn [nondigit_start span_digits] in *.
    apply negb_true_iff in Hr. now rewrite Hr.
  - apply andb_true_iff in Hd as [-> Hd]. now rewrite IH.
Qed.

Lemma drop_zeros_repeat j s : drop_zeros (repeat 48 j ++ s) = drop_zeros s.
Proof. induction j; simpl; auto. Qed.

Lemma rev_repeat_zeros j : rev (repeat 48 j) = repeat 48 j.
Proof.
  induction j as [|j IH]; [reflexivity|].
  simpl. rewrite IH. clear IH. induction j; simpl; congruence.
Qed.

Lemma strip_trailing_zeros_app x j :
  x <> [] -> last x 0 <> 48 ->
  strip_trailing_zeros (x ++ repeat 48 j) = (x, Z.of_nat j).
Proof.
  intros Hx Hlast. unfold strip_trailing_zeros.
  rewrite rev_app_distr, rev_repeat_zeros, drop_zeros_repeat.
  destruct (exists_last Hx) as (x' & l & ->).
  rewrite last_last in Hlast.
  rewrite rev_app_distr. simpl.
  apply N.eqb_neq in Hlast. rewrite Hlast.
  change (l :: rev x') with (rev [l] ++ rev x').
  rewrite <- rev_app_distr, rev_involutive.
  f_equal. rewrite !length_app, repeat_length. lia.
Qed.

Lemma strip_trailing_zeros_id x :
  x <> [] -> last x 0 <> 48 -> strip_trailing_zeros x = (x, 0%Z).
Proof.
  intros Hx Hl. rewrite <- (app_nil_r x) at 1.
  apply (strip_trailing_zeros_app x 0 Hx Hl).
Qed.

(** ** The parts of a number token *)

Lemma parse_int_part_digits c d rest :
  c <> 48 -> is_digit c = true -> forallb is_digit d = true ->
  nondigit_start rest = true ->
  parse_int_part (c :: d ++ rest) = Some (c :: d, rest).
Proof.
  intros Hc Hdc Hd Hr. unfold parse_int_part.
  apply N.eqb_neq in Hc. rewrite Hc, Hdc, span_digits_app; auto.
Qed.

Lemma parse_fraction_digits d rest :
  d <> [] -> forallb is_digit d = true -> nondigit_start rest = true ->
  parse_fraction (46 :: d ++ rest) = Some (d, rest).
Proof.
  intros Hne Hd Hr. unfold parse_fraction.
  change (46 =? 46) with true. cbv iota.
  rewrite span_digits_app by assumption.
  destruct d; [now contradiction Hne | reflexivity].
Qed.

Lemma parse_fraction_none rest :
  match rest with [] => true | c :: _ => negb (c =? 46) end = true ->
  parse_fraction rest = Some ([], rest).
Proof.
  destruct rest as [|c r]; [reflexivity|]. unfold parse_fraction.
  intros H. apply negb_true_iff in H. now rewrite H.
Qed.

Lemma parse_exponent_none rest :
  match rest with [] => true | c :: _ => negb ((c =? 101) || (c =? 69)) end = true ->
  parse_exponent rest = Some (0%Z, rest).
Proof.
  destruct rest as [|c r]; [reflexivity|]. unfold parse_exponent.
  intros H. apply negb_true_iff in H. now rewrite H.
Qed.

Lemma parse_exponent_digits (x : Z) rest :
  nondigit_start rest = true ->
  parse_exponent (101 :: (if (x <? 0)%Z then 45 else 43) :: digits (Z.abs_N x) ++ rest)
  = Some (x, rest).
Proof.
  intros Hr. unfold parse_exponent.
  change ((101 =? 101) || (101 =? 69)) with true. cbv iota.
  pose proof (digits_nonempty (Z.abs_N x)) as Hne.
  destruct (Z.ltb_spec x 0).
  - change (45 =? 43) with false. change (45 =? 45) with true. cbv iota.
    rewrite span_digits_app by (auto using digits_are_digits).
    destruct (digits (Z.abs_N x)) eqn:E; [now contradiction Hne|].
    rewrite <- E, digits_value_digits. f_equal. f_equal. lia.
  - change (43 =? 43) with true. cbv iota.
    rewrite span_digits_app by (auto using digits_are_digits).
    destruct (digits (Z.abs_N x)) eqn:E; [now contradiction Hne|].
    rewrite <- E, digits_value_digits. f_equal. f_equal. lia.
Qed.

Lemma delimited_no_point rest :
  delimited rest = true ->
  match rest with [] => true | c :: _ => negb (c =? 46) end = true.
Proof.
  destruct rest as [|c r]; simpl; [reflexivity|].
  rewrite !negb_true_iff, !orb_false_iff. tauto.
Qed.

Lemma delimited_no_exponent rest :
  delimited rest = true ->
  match rest with [] => true | c :: _ => negb ((c =? 101) || (c =? 69)) end = true.
Proof.
  destruct rest as [|c r]; simpl; [reflexivity|].
  rewrite !negb_true_iff, !orb_false_iff. tauto.
Qed.

Lemma forallb_firstn {A} (f : A -> bool) n l :
  forallb f l = true -> forallb f (firstn n l) = true.
Proof.
  revert n. induction l as [|x l IH]; intros [|n] H; simpl in *; auto.
  apply andb_true_iff in H as [-> H]. simpl. auto.
Qed.

Lemma forallb_skipn {A} (f : A -> bool) n l :
  forallb f l = true -> forallb f (skipn n l) = true.
Proof.
  revert n. induction l as [|x l IH]; intros [|n] H; simpl in *; auto.
  apply andb_true_iff in H as [_ H]. auto.
Qed.

Lemma forallb_zeros j : forallb is_digit (repeat 48 j) = true.
Proof. induction j; simpl; auto. Qed.

Lemma last_app_r {A} (pre s : list A) d :
  s <> [] -> last (pre ++ s) d = last s d.
Proof.
  intros Hs. induction pre as [|y pre IH]; [reflexivity|].
  simpl. destruct (pre ++ s) eqn:E; [|exact IH].
  apply app_eq_nil in E as [_ ->]. congruence.
Qed.

Lemma decimal_number_eq negative int frac exp s z :
  strip_trailing_zeros (int ++ frac) = (s, z) ->
  digits_value s <> 0 ->
  decimal_number negative int frac exp =
  Finite (if negative then (- Z.of_N (digits_value s))%Z else Z.of_N (digits_value s))
         (exp - Z.of_nat (length frac) + z).
Proof.
  intros Hs Hv. unfold decimal_number. rewrite Hs.
  destruct (Z.eqb_spec (Z.of_N (digits_value s)) 0); [lia | reflexivity].
Qed.

(** A number printed by [decimal_text] reads back as the number. *)
Lemma parse_decimal_text negative s n rest :
  s <> [] -> forallb is_digit s = true ->
  hd 0 s <> 48 -> last s 0 <> 48 -> digits_value s <> 0 ->
  delimited rest = true ->
  parse_unsigned negative (decimal_text s n ++ rest) =
  Some (Finite (if negative then (- Z.of_N (digits_value s))%Z
                else Z.of_N (digits_value s))
               (n - Z.of_nat (length s)), rest).
Proof.
  intros Hne Hdig Hhd Hlast Hval Hrest.
  pose proof (delimited_nondigit _ Hrest) as Hnd.
  pose proof (delimited_no_point _ Hrest) as Hnp.
  pose proof (delimited_no_exponent _ Hrest) as Hnx.
  destruct s as [|c d]; [congruence|]. cbn [hd] in Hhd.
  cbn [forallb] in Hdig. apply andb_true_iff in Hdig as [Hc Hd].
  unfold decimal_text, parse_unsigned.
  set (k := Z.of_nat (length (c :: d))).
  assert (Hk : k = (1 + Z.of_nat (length d))%Z) by (subst k; simpl length; lia).
  destruct ((k <=? n)%Z && (n <=? 21)%Z) eqn:C1.
  { (* digits, then zeros *)
    apply andb_true_iff in C1 as [C1 _]. apply Z.leb_le in C1.
    rewrite <- app_assoc, <- app_comm_cons, app_assoc.
    rewrite parse_int_part_digits; auto.
    2:{ rewrite forallb_app, Hd. apply forallb_zeros. }
    rewrite parse_fraction_none, parse_exponent_none by assumption.
    f_equal. f_equal.
    rewrite (decimal_number_eq _ _ _ _ (c :: d) (Z.of_nat (Z.to_nat (n - k)))).
    - f_equal. simpl length in *. lia.
    - rewrite app_nil_r, app_comm_cons. now apply strip_trailing_zeros_app.
    - assumption. }
  destruct ((0 <? n)%Z && (n <=? 21)%Z) eqn:C2.
  { (* a decimal point inside the digits *)
    apply andb_true_iff in C2 as [C2 C2']. apply Z.ltb_lt in C2. apply Z.leb_le in C2'.
    apply andb_false_iff in C1 as [C1 | C1]; apply Z.leb_gt in C1; [|lia].
    destruct (Z.to_nat n) as [|p] eqn:Ep; [lia|].
    cbn [firstn skipn]. rewrite <- app_assoc, <- !app_comm_cons.
    rewrite parse_int_part_digits; auto using forallb_firstn.
    assert (Hp : (p < length d)%nat) by lia.
    assert (Hskip : skipn p d <> []).
    { intros E. apply (f_equal (@length N)) in E. rewrite length_skipn in E.
      simpl in E. lia. }
    rewrite parse_fraction_digits; auto using forallb_skipn.
    rewrite parse_exponent_none by assumption.
    f_equal. f_equal.
    rewrite (decimal_number_eq _ _ _ _ (c :: d) 0%Z).
    - f_equal. rewrite length_skipn. simpl length in *. lia.
    - rewrite <- app_comm_cons, firstn_skipn. now apply strip_trailing_zeros_id.
    - assumption. }
  destruct ((-6 <? n)%Z && (n <=? 0)%Z) eqn:C3.
  { (* zero, a decimal point, zeros and the digits *)
    apply andb_true_iff in C3 as [_ C3]. apply Z.leb_le in C3.
    rewrite <- !app_comm_cons.
    unfold parse_int_part. change (48 =? 48) with true. cbv iota.
    rewrite parse_fraction_digits; auto.
    2:{ destruct (repeat 48 (Z.to_nat (- n))); discriminate. }
    2:{ rewrite forallb_app, forallb_zeros. simpl. now rewrite Hc, Hd. }
    rewrite parse_exponent_none by assumption.
    f_equal. f_equal.
    rewrite (decimal_number_eq _ _ _ _ ([48] ++ repeat 48 (Z.to_nat (- n)) ++ c :: d) 0%Z).
    - f_equal.
      + change ([48] ++ ?t) with (repeat 48 1 ++ t).
        now rewrite !digits_value_zeros.
      + rewrite length_app, repeat_length. simpl length in *. lia.
    - apply strip_trailing_zeros_id; [discriminate|].
      rewrite app_assoc, last_app_r; [assumption | discriminate].
    - change ([48] ++ ?t) with (repeat 48 1 ++ t).
      now rewrite !digits_value_zeros. }
  (* exponential notation *)
  assert (Hx : nondigit_start
                 (101 :: (if (n - 1 <? 0)%Z then 45 else 43)
                      :: digits (Z.abs_N (n - 1)) ++ rest) = true) by reflexivity.
  destruct d as [|c' d'].
  - cbn [app].
    pose proof (parse_int_part_digits c [] _ Hhd Hc eq_refl Hx) as Hi.
    cbn [app] in Hi. rewrite Hi. clear Hi.
    rewrite parse_fraction_none by reflexivity.
    rewrite parse_exponent_digits by assumption.
    f_equal. f_equal.
    rewrite (decimal_number_eq _ _ _ _ [c] 0%Z).
    + f_equal. simpl length in *. lia.
    + now apply strip_trailing_zeros_id.
    + assumption.
  - rewrite <- !app_comm_cons, <- app_assoc, <- !app_comm_cons.
    pose proof (parse_int_part_digits c [] (46 :: (c' :: d') ++ 101
                  :: (if (n - 1 <? 0)%Z then 45 else 43)
                  :: digits (Z.abs_N (n - 1)) ++ rest) Hhd Hc eq_refl eq_refl) as Hi.
    cbn [app] in Hi. cbn [app]. rewrite Hi. clear Hi.
    change (c' :: d' ++ ?t) with ((c' :: d') ++ t).
    rewrite parse_fraction_digits; auto; [|discriminate].
    rewrite parse_exponent_digits by assumption.
    f_equal. f_equal.
    rewrite (decimal_number_eq _ _ _ _ (c :: c' :: d') 0%Z).
    + f_equal. simpl length in *. lia.
    + now apply strip_trailing_zeros_id.
    + assumption.
Qed.

Lemma SerializeJSONProperty_array l :
  SerializeJSONProperty (VArray l) =
  (partial <- serialize_elements l ;;
   Normal (Some (91 :: join_comma partial ++ [93]))).
Proof. reflexivity. Qed.

Lemma SerializeJSONProperty_object props :
  SerializeJSONProperty (VObject props) =
  (partial <- serialize_members props ;;
   Normal (Some (123 :: join_comma partial ++ [125]))).
Proof. reflexivity. Qed.

(** ** Numbers *)

Lemma parse_number_unsigned t r :
  parse_unsigned false t = Some r -> parse_number t = Some r.
Proof.
  destruct t as [|c t]; [discriminate|]. unfold parse_number.
  destruct (N.eqb_spec c 45) as [->|]; [discriminate | trivial].
Qed.

Lemma parse_Number_toString n rest :
  json_number n = true -> delimited rest = true ->
  parse_number (Number_toString n ++ rest) = Some (n, rest).
Proof.
  destruct n as [| |m e]; try discriminate. cbn [json_number Number_toString].
  intros Hn Hrest.
  destruct (Z.eqb_spec m 0) as [->|Hm].
  - apply Z.eqb_eq in Hn as ->.
    apply parse_number_unsigned. unfold parse_unsigned.
    change (str "0" ++ rest) with (48 :: rest).
    unfold parse_int_part. change (48 =? 48) with true. cbv iota.
    rewrite parse_fraction_none, parse_exponent_none
      by auto using delimited_no_point, delimited_no_exponent.
    reflexivity.
  - apply negb_true_iff, N.eqb_neq in Hn.
    assert (Habs : Z.abs_N m <> 0) by (destruct m; [congruence | discriminate..]).
    pose proof (digits_nonempty (Z.abs_N m)) as Hne.
    pose proof (digits_are_digits (Z.abs_N m)) as Hdig.
    assert (Hhd : hd 0 (digits (Z.abs_N m)) <> 48).
    { destruct (digits (Z.abs_N m)) eqn:E; [congruence|].
      apply (digits_head _ _ _ Habs E). }
    assert (Hval : digits_value (digits (Z.abs_N m)) <> 0)
      by now rewrite digits_value_digits.
    rewrite (strip_trailing_zeros_id _ Hne Hn).
    pose proof (fun neg => parse_decimal_text neg _
                  (Z.of_nat (length (digits (Z.abs_N m))) + e + 0)
                  rest Hne Hdig Hhd Hn Hval Hrest) as Hparse.
    rewrite digits_value_digits, N2Z.inj_abs_N in Hparse.
    destruct (Z.ltb_spec m 0).
    + cbn [app parse_number]. change (45 =? 45) with true. cbv iota.
      rewrite Hparse. f_equal. f_equal. f_equal; lia.
    + apply parse_number_unsigned. cbn [app].
      rewrite Hparse. f_equal. f_equal. f_equal; lia.
Qed.

Lemma parse_number_head c r x :
  parse_number (c :: r) = Some x -> (c =? 45) || is_digit c = true.
Proof.
  unfold parse_number. destruct (c =? 45); [reflexivity|].
  unfold parse_unsigned, parse_int_part.
  destruct (N.eqb_spec c 48) as [->|]; [reflexivity|].
  destruct (is_digit c); [reflexivity | discriminate].
Qed.

Lemma parse_value_number fuel text x rest :
  parse_number text = Some (x, rest) ->
  parse_value (S fuel) text = POk (VNumber x) rest.
Proof.
  intros H. destruct text as [|c r]; [discriminate|].
  pose proof (parse_number_head _ _ _ H) as Hc.
  assert (Hrange : c = 45 \/ 48 <= c <= 57).
  { apply orb_true_iff in Hc as [Hc | Hc]; [left; now apply N.eqb_eq|].
    right. unfold is_digit in Hc. apply andb_true_iff in Hc as [H1 H2].
    apply N.leb_le in H1, H2. lia. }
  assert (Hws : is_whitespace c = false).
  { unfold is_whitespace. rewrite !orb_false_iff, !N.eqb_neq. lia. }
  cbn [parse_value skip_ws]. rewrite Hws, Hc, H. clear Hws Hc H.
  repeat case_eqb. reflexivity.
Qed.

(** ** Values *)

Lemma value_start_not_space c :
  value_start c = true -> is_whitespace c = false /\ c <> 93 /\ c <> 125.
Proof.
  unfold value_start, is_whitespace, is_digit.
  rewrite !orb_true_iff, andb_true_iff, !N.eqb_eq, !N.leb_le.
  intros H. repeat split; try lia.
  rewrite !orb_false_iff, !N.eqb_neq. lia.
Qed.

Lemma serializable_text v o :
  json_serializable v = true -> SerializeJSONProperty v = Normal o ->
  exists c t, o = Some (c :: t) /\ value_start c = true.
Proof.
  destruct v as [| |b|n| |s| |l|props| |]; try discriminate; intros Hv H.
  - injection H as <-. now exists 110, (str "ull").
  - destruct b; injection H as <-;
      [now exists 116, (str "rue") | now exists 102, (str "alse")].
  - cbn [SerializeJSONProperty json_serializable] in *. injection H as <-.
    assert (Hfin : is_finite n = true) by (destruct n; [discriminate.. | reflexivity]).
    rewrite Hfin.
    pose proof (parse_Number_toString n [] Hv eq_refl) as Hp.
    rewrite app_nil_r in Hp.
    destruct (Number_toString n) as [|c t]; [discriminate|].
    exists c, t. split; [reflexivity|].
    apply parse_number_head in Hp. unfold value_start.
    apply orb_true_iff in Hp as [-> | ->]; rewrite ?orb_true_r; reflexivity.
  - injection H as <-. now exists 34, (quote_chars s ++ [34]).
  - rewrite SerializeJSONProperty_array in H.
    destruct (serialize_elements l); [|discriminate]. injection H as <-.
    now eexists 91, _.
  - rewrite SerializeJSONProperty_object in H.
    destruct (serialize_members props); [|discriminate]. injection H as <-.
    now eexists 123, _.
Qed.


Lemma skip_ws_value_start c t :
  value_start c = true -> skip_ws (c :: t) = c :: t.
Proof.
  intros H. apply value_start_not_space in H as [H _]. simpl. now rewrite H.
Qed.

Lemma parse_elements_serialized l :
  Forall (fun x => json_serializable x = true -> reads_back x) l ->
  forallb json_serializable l = true -> l <> [] ->
  forall partial, serialize_elements l = Normal partial ->
  (exists c t, join_comma partial = c :: t /\ value_start c = true) /\
  exists fuel0, forall fuel rest,
    (fuel0 <= fuel)%nat ->
    parse_elements fuel (join_comma partial ++ 93 :: rest) = POk l rest.
Proof.
  induction 1 as [|x r Hx Hr IH]; [congruence|].
  cbn [forallb]. rewrite andb_true_iff. intros [Sx Sr] _ partial Hser.
  cbn [serialize_elements] in Hser. fold serialize_elements in Hser.
  destruct (SerializeJSONProperty x) as [o|] eqn:Ex; [|discriminate].
  destruct (serialize_elements r) as [parts|] eqn:Er; [|discriminate].
  destruct (serializable_text x o Sx Ex) as (c & t & -> & Hc).
  cbv beta iota in Hser. injection Hser as <-.
  destruct (Hx Sx _ Ex) as [fx Hfx].
  destruct r as [|y r'].
  - injection Er as <-. cbn [join_comma]. split; [eauto|].
    exists (S fx). intros [|fuel] rest Hfuel; [lia|].
    cbn [parse_elements]. rewrite Hfx by (reflexivity || lia).
    reflexivity.
  - destruct (IH Sr ltac:(discriminate) parts eq_refl) as [(c' & t' & Hj & Hc') [fr Hfr]].
    assert (Hparts : forall p, join_comma (p :: parts) = p ++ 44 :: join_comma parts).
    { intros p. destruct parts; [discriminate Hj | reflexivity]. }
    split; [exists c, (t ++ 44 :: join_comma parts); split; [apply Hparts | exact Hc]|].
    exists (S (Nat.max fx fr)). intros [|fuel] rest Hfuel; [lia|].
    rewrite Hparts.
    cbn [parse_elements]. rewrite <- app_assoc.
    rewrite Hfx by (reflexivity || lia).
    cbn [skip_ws app]. change (is_whitespace 44) with false.
    change (44 =? 93) with false. change (44 =? 44) with true. cbv iota.
    rewrite Hfr by lia. reflexivity.
Qed.

Lemma parse_members_serialized props :
  Forall (fun p => json_serializable (snd p) = true -> reads_back (snd p)) props ->
  forallb (fun p => json_serializable (snd p)) props = true -> props <> [] ->
  forall partial, serialize_members props = Normal partial ->
  (exists t, join_comma partial = 34 :: t) /\
  exists fuel0, forall fuel rest,
    (fuel0 <= fuel)%nat ->
    parse_members fuel (join_comma partial ++ 125 :: rest) = POk props rest.
Proof.
  induction 1 as [|[k x] r Hx Hr IH]; [congruence|].
  cbn [forallb snd] in *. rewrite andb_true_iff. intros [Sx Sr] _ partial Hser.
  cbn [serialize_members] in Hser. fold serialize_members in Hser.
  destruct (SerializeJSONProperty x) as [o|] eqn:Ex; [|discriminate].
  destruct (serialize_members r) as [parts|] eqn:Er; [|discriminate].
  destruct (serializable_text x o Sx Ex) as (c & t & -> & Hc).
  cbv beta iota in Hser. injection Hser as <-.
  destruct (Hx Sx _ Ex) as [fx Hfx].
  assert (Hmember : forall more,
            (QuoteJSONString k ++ 58 :: c :: t) ++ more =
            34 :: quote_chars k ++ 34 :: 58 :: (c :: t) ++ more).
  { intros more. unfold QuoteJSONString.
    now rewrite <- !app_comm_cons, <- !app_assoc. }
  destruct r as [|y r'].
  - injection Er as <-. cbn [join_comma]. split; [unfold QuoteJSONString; eauto|].
    exists (S fx). intros [|fuel] rest Hfuel; [lia|].
    rewrite Hmember. cbn [parse_members skip_ws].
    change (is_whitespace 34) with false. change (34 =? 34) with true. cbv iota.
    rewrite parse_quote_chars. cbn [skip_ws].
    change (is_whitespace 58) with false. change (58 =? 58) with true. cbv iota.
    rewrite Hfx by (reflexivity || lia). reflexivity.
  - destruct (IH Sr ltac:(discriminate) parts eq_refl) as [(t' & Hj) [fr Hfr]].
    assert (Hparts : forall p, join_comma (p :: parts) = p ++ 44 :: join_comma parts).
    { intros p. destruct parts; [discriminate Hj | reflexivity]. }
    split; [eexists; rewrite Hparts; unfold QuoteJSONString; reflexivity|].
    exists (S (Nat.max fx fr)). intros [|fuel] rest Hfuel; [lia|].
    rewrite Hparts, <- app_assoc, Hmember. cbn [parse_members skip_ws].
    change (is_whitespace 34) with false. change (34 =? 34) with true. cbv iota.
    rewrite parse_quote_chars. cbn [skip_ws].
    change (is_whitespace 58) with false. change (58 =? 58) with true. cbv iota.
    rewrite Hfx by (reflexivity || lia).
    cbn [skip_ws app]. change (is_whitespace 44) with false.
    change (44 =? 125) with false. change (44 =? 44) with true. cbv iota.
    rewrite Hfr by lia. reflexivity.
Qed.

Lemma serialized_reads_back v : json_serializable v = true -> reads_back v.
Proof.
  induction v as [| |b|n|z|s|d|l IH|props IH|f|fd] using value_ind;
    try discriminate; intros Hv text Hser.
  - injection Hser as <-. exists 1%nat. intros [|fuel] rest Hfuel _; [lia | reflexivity].
  - exists 1%nat. intros [|fuel] rest Hfuel _; [lia|].
    destruct b; injection Hser as <-; reflexivity.
  - cbn [SerializeJSONProperty json_serializable] in *. injection Hser as <-.
    assert (Hfin : is_finite n = true) by (destruct n; [discriminate.. | reflexivity]).
    rewrite Hfin. exists 1%nat. intros [|fuel] rest Hfuel Hrest; [lia|].
    apply parse_value_number. now apply parse_Number_toString.
  - injection Hser as <-. exists 1%nat. intros [|fuel] rest Hfuel _; [lia|].
    unfold QuoteJSONString. rewrite <- app_comm_cons, <- app_assoc.
    cbn [parse_value skip_ws app].
    change (is_whitespace 34) with false. cbv iota.
    change (34 =? 123) with false. change (34 =? 91) with false.
    change (34 =? 34) with true. cbv iota.
    rewrite parse_quote_chars. reflexivity.
  - rewrite SerializeJSONProperty_array in Hser.
    destruct (serialize_elements l) as [partial|] eqn:El; [|discriminate].
    injection Hser as <-. cbn [json_serializable] in Hv.
    destruct l as [|x r].
    + injection El as <-. exists 1%nat.
      intros [|fuel] rest Hfuel _; [lia | reflexivity].
    + destruct (parse_elements_serialized _ IH Hv ltac:(discriminate) _ El)
        as [(c & t & Hj & Hc) [f0 Hf0]].
      exists (S f0). intros [|fuel] rest Hfuel _; [lia|].
      rewrite <- app_comm_cons, <- app_assoc.
      cbn [parse_value skip_ws app].
      change (is_whitespace 91) with false. cbv iota.
      change (91 =? 123) with false. change (91 =? 91) with true. cbv iota.
      specialize (Hf0 fuel rest ltac:(lia)).
      rewrite Hj in *. rewrite <- app_comm_cons in *.
      rewrite skip_ws_value_start by assumption.
      apply value_start_not_space in Hc as (_ & Hc & _).
      apply N.eqb_neq in Hc. rewrite Hc, Hf0. reflexivity.
  - rewrite SerializeJSONProperty_object in Hser.
    destruct (serialize_members props) as [partial|] eqn:El; [|discriminate].
    injection Hser as <-. cbn [json_serializable] in Hv.
    apply andb_true_iff in Hv as [Hord Hv].
    destruct props as [|p r].
    + injection El as <-. exists 1%nat.
      intros [|fuel] rest Hfuel _; [lia | reflexivity].
    + destruct (parse_members_serialized _ IH Hv ltac:(discriminate) _ El)
        as [(t & Hj) [f0 Hf0]].
      exists (S f0). intros [|fuel] rest Hfuel _; [lia|].
      rewrite <- app_comm_cons, <- app_assoc.
      cbn [parse_value skip_ws app].
      change (is_whitespace 123) with false. cbv iota.
      change (123 =? 123) with true. cbv iota.
      specialize (Hf0 fuel rest ltac:(lia)).
      rewrite Hj in *. rewrite <- app_comm_cons in *.
      cbn [skip_ws]. change (is_whitespace 34) with false. cbv iota.
      change (34 =? 125) with false. cbv iota.
      rewrite Hf0. now rewrite object_of_members_in_order.
Qed.

Lemma serializable_normal v :
  json_serializable v = true -> exists o, SerializeJSONProperty v = Normal o.
Proof.
  induction v as [| |b|n|z|s|d|l IH|props IH|f|fd] using value_ind;
    try discriminate; intros Hv; try (cbn; eauto; fail).
  - destruct b; cbn; eauto.
  - rewrite SerializeJSONProperty_array. cbn [json_serializable] in Hv.
    assert (exists partial, serialize_elements l = Normal partial) as [partial ->];
      [|eauto].
    induction IH as [|x r Hx _ IHr]; [cbn; eauto|].
    cbn [forallb] in Hv. apply andb_true_iff in Hv as [Sx Sr].
    cbn [serialize_elements]. fold serialize_elements.
    destruct (Hx Sx) as [o ->]. destruct (IHr Sr) as [parts ->]. eauto.
  - rewrite SerializeJSONProperty_object. cbn [json_serializable] in Hv.
    apply andb_true_iff in Hv as [_ Hv].
    assert (exists partial, serialize_members props = Normal partial) as [partial ->];
      [|eauto].
    induction IH as [|[k x] r Hx _ IHr]; [cbn; eauto|].
    cbn [forallb snd] in *. apply andb_true_iff in Hv as [Sx Sr].
    cbn [serialize_members]. fold serialize_members.
    destruct (Hx Sx) as [o ->]. destruct (IHr Sr) as [parts ->].
    destruct o; eauto.
Qed.

(** The text [JSON.stringify] gives for a value that JSON can express
    is valid JSON text and denotes that value. *)
Lemma parse_text_serialized v :
  json_serializable v = true ->
  exists text, JSON_stringify v = Normal (VString text) /\ parse_text text = Some v.
Proof.
  intros Hv. unfold JSON_stringify.
  destruct (serializable_normal v Hv) as [o E]. rewrite E.
  destruct (serializable_text v o Hv E) as (c & t & -> & _).
  exists (c :: t). split; [reflexivity|].
  destruct (serialized_reads_back v Hv _ E) as [f0 Hf0].
  specialize (Hf0 (Nat.max f0 (parse_fuel (c :: t))) [] ltac:(lia) eq_refl).
  rewrite app_nil_r in Hf0.
  unfold parse_text.
  rewrite <- (proj1 (parse_fuel_mono (parse_fuel (c :: t))) (c :: t) _ eq_refl
                (parse_value_terminates _) _ (Nat.le_max_r f0 _)).
  rewrite Hf0. reflexivity.
Qed.

(** ** What the parser builds *)

Lemma digit_cases c :
  is_digit c = true ->
  c = 48 \/ c = 49 \/ c = 50 \/ c = 51 \/ c = 52 \/
  c = 53 \/ c = 54 \/ c = 55 \/ c = 56 \/ c = 57.
Proof.
  unfold is_digit. rewrite andb_true_iff, !N.leb_le. lia.
Qed.

Lemma uint_chars_chars_uint s :
  forallb is_digit s = true -> uint_chars (chars_uint s) = s.
Proof.
  induction s as [|c r IH]; [reflexivity|].
  cbn [forallb]. rewrite andb_true_iff. intros [Hc Hr].
  apply digit_cases in Hc.
  repeat (destruct Hc as [-> | Hc]; [cbn; now rewrite IH|]).
  subst. cbn. now rewrite IH.
Qed.

Lemma nzhead_chars u :
  exists j, uint_chars u = repeat 48 j ++ uint_chars (nzhead u).
Proof.
  induction u; try (now exists 0%nat).
  destruct IHu as [j Hj]. exists (S j). cbn. now rewrite Hj.
Qed.

Lemma drop_zeros_digits s :
  forallb is_digit s = true -> forallb is_digit (drop_zeros s) = true.
Proof.
  induction s as [|c r IH]; [reflexivity|].
  intros H. cbn [drop_zeros]. destruct (c =? 48); [|exact H].
  cbn [forallb] in H. apply andb_true_iff in H as [_ H]. auto.
Qed.

Lemma drop_zeros_head s c r : drop_zeros s = c :: r -> c <> 48.
Proof.
  induction s as [|x s IH]; [discriminate|]. cbn [drop_zeros].
  destruct (N.eqb_spec x 48); [exact IH|].
  intros [= <- <-]. assumption.
Qed.

Lemma forallb_rev {A} (f : A -> bool) l :
  forallb f l = true -> forallb f (rev l) = true.
Proof.
  rewrite !forallb_forall. intros H x Hx. apply H. now apply in_rev.
Qed.

Lemma strip_trailing_zeros_spec s t z :
  forallb is_digit s = true -> strip_trailing_zeros s = (t, z) ->
  forallb is_digit t = true /\ (t = [] \/ last t 0 <> 48).
Proof.
  unfold strip_trailing_zeros. intros Hs [= <- _]. split.
  - now apply forallb_rev, drop_zeros_digits, forallb_rev.
  - destruct (drop_zeros (rev s)) as [|c r] eqn:E; [now left|].
    right. cbn [rev]. rewrite last_last. eapply drop_zeros_head, E.
Qed.

Lemma last_digits_value s :
  forallb is_digit s = true -> digits_value s <> 0 ->
  last (digits (digits_value s)) 0 = last s 0.
Proof.
  intros Hs Hv. unfold digits, digits_value in *.
  rewrite Unsigned.to_of.
  set (u := chars_uint s) in *.
  assert (Hnz : nzhead u <> Nil).
  { intros E. apply Hv. rewrite <- Unsigned.of_uint_norm.
    apply unorm_0 in E. now rewrite E. }
  rewrite (unorm_nzhead u Hnz).
  destruct (nzhead_chars u) as [j Hj].
  rewrite <- (uint_chars_chars_uint s Hs). fold u. rewrite Hj.
  symmetry. apply last_app_r.
  destruct (nzhead u); [congruence | discriminate..].
Qed.

Lemma decimal_number_json negative int frac exp :
  forallb is_digit int = true -> forallb is_digit frac = true ->
  json_number (decimal_number negative int frac exp) = true.
Proof.
  intros Hi Hf. unfold decimal_number.
  destruct (strip_trailing_zeros (int ++ frac)) as [s z] eqn:E.
  apply strip_trailing_zeros_spec in E as [Hs Hlast];
    [|now rewrite forallb_app, Hi, Hf].
  destruct (Z.eqb_spec (Z.of_N (digits_value s)) 0) as [|Hm]; [reflexivity|].
  assert (Hv : digits_value s <> 0) by lia.
  destruct Hlast as [-> | Hlast]; [now contradiction Hv|].
  assert (Habs : Z.abs_N (if negative then (- Z.of_N (digits_value s))%Z
                          else Z.of_N (digits_value s)) = digits_value s).
  { destruct negative; [rewrite Zabs2N.inj_opp|]; apply Zabs2N.id. }
  cbn [json_number]. rewrite Habs, last_digits_value by assumption.
  apply N.eqb_neq in Hlast. rewrite Hlast.
  destruct negative.
  - destruct (Z.eqb_spec (- Z.of_N (digits_value s)) 0); [lia | reflexivity].
  - destruct (Z.eqb_spec (Z.of_N (digits_value s)) 0); [lia | reflexivity].
Qed.

Lemma span_digits_are_digits s d rest :
  span_digits s = (d, rest) -> forallb is_digit d = true.
Proof.
  revert d rest. induction s as [|c r IH]; intros d rest H; cbn [span_digits] in H.
  - now injection H as <- <-.
  - destruct (is_digit c) eqn:Hc; [|now injection H as <- <-].
    destruct (span_digits r) as [d' rest'] eqn:E. injection H as <- <-.
    cbn [forallb]. rewrite Hc. exact (IH _ _ eq_refl).
Qed.

Lemma parse_number_json s n rest :
  parse_number s = Some (n, rest) -> json_number n = true.
Proof.
  assert (Hu : forall negative t, parse_unsigned negative t = Some (n, rest) ->
                                  json_number n = true).
  { intros negative t. unfold parse_unsigned.
    destruct (parse_int_part t) as [[int s2]|] eqn:E1; [|discriminate].
    destruct (parse_fraction s2) as [[frac s3]|] eqn:E2; [|discriminate].
    destruct (parse_exponent s3) as [[x s4]|]; [|discriminate].
    intros [= <- _]. apply decimal_number_json.
    - unfold parse_int_part in E1. destruct t as [|c r]; [discriminate|].
      destruct (c =? 48); [now injection E1 as <- _|].
      destruct (is_digit c) eqn:Hc; [|discriminate].
      destruct (span_digits r) as [d rest'] eqn:E. injection E1 as <- _.
      cbn [forallb]. rewrite Hc. exact (span_digits_are_digits _ _ _ E).
    - unfold parse_fraction in E2. destruct s2 as [|c r]; [now injection E2 as <- _|].
      destruct (c =? 46); [|now injection E2 as <- _].
      destruct (span_digits r) as [d rest'] eqn:E.
      destruct d; [discriminate|]. injection E2 as <- _.
      exact (span_digits_are_digits _ _ _ E). }
  unfold parse_number. destruct s as [|c r]; [discriminate|].
  destruct (c =? 45); apply Hu.
Qed.

(** ** Property creation keeps the properties in order *)

Lemma array_index_digits k i : array_index k = Some i -> k = digits i.
Proof.
  unfold array_index. destruct k as [|c r]; [discriminate|].
  destruct (forallb is_digit (c :: r)) eqn:Hd; [|discriminate].
  destruct (negb (c =? 48) || match r with [] => true | _ :: _ => false end) eqn:Hc;
    [|discriminate].
  cbn [andb]. destruct (digits_value (c :: r) <? 4294967295); [|discriminate].
  intros [= <-]. unfold digits, digits_value. rewrite Unsigned.to_of.
  rewrite <- (uint_chars_chars_uint (c :: r) Hd) at 1. f_equal.
  cbn [forallb] in Hd. apply andb_true_iff in Hd as [Hdc _].
  apply digit_cases in Hdc. cbn [chars_uint].
  destruct Hdc as [-> | Hdc].
  - destruct r; [reflexivity | discriminate].
  - repeat (destruct Hdc as [-> | Hdc]; [reflexivity|]). now subst.
Qed.

Lemma array_index_inj k k' i :
  array_index k = Some i -> array_index k' = Some i -> k = k'.
Proof.
  intros H H'. apply array_index_digits in H, H'. congruence.
Qed.

Lemma replace_value_keys {A} k (v : A) props :
  map fst (replace_value k v props) = map fst props.
Proof.
  induction props as [|[k' v'] r IH]; [reflexivity|].
  cbn [replace_value]. destruct (jsstring_eqb k k'); cbn; now rewrite ?IH.
Qed.

Lemma insert_index_order {A} i k (v : A) props : forall bound,
  array_index k = Some i -> has_key k props = false -> bound <= i ->
  indices_then_names bound (map fst props) = true ->
  indices_then_names bound (map fst (insert_index i k v props)) = true.
Proof.
  induction props as [|[k' v'] r IH]; intros bound Hk Hfresh Hb Hord.
  - cbn. rewrite Hk. apply andb_true_iff. split; [now apply N.leb_le | reflexivity].
  - cbn [has_key] in Hfresh. apply orb_false_iff in Hfresh as [Hne Hfresh].
    cbn [map fst indices_then_names] in Hord. cbn [insert_index].
    destruct (array_index k') as [j|] eqn:Ek'.
    + apply andb_true_iff in Hord as [Hbj Hord]. apply N.leb_le in Hbj.
      destruct (N.ltb_spec j i).
      * cbn [map fst indices_then_names]. rewrite Ek'.
        apply andb_true_iff. split; [now apply N.leb_le|].
        apply IH; auto. lia.
      * assert (i <> j).
        { intros <-. rewrite (array_index_inj _ _ _ Hk Ek') in Hne.
          assert (jsstring_eqb k' k' = true) by now apply jsstring_eqb_eq.
          congruence. }
        cbn [map fst indices_then_names]. rewrite Hk, Ek'.
        rewrite !andb_true_iff, !N.leb_le. repeat split; [lia | lia | exact Hord].
    + cbn [map fst indices_then_names]. rewrite Hk.
      apply andb_true_iff. split; [now apply N.leb_le|].
      cbn [indices_then_names]. now rewrite Ek'.
Qed.

Lemma names_in_order_app keys k :
  array_index k = None -> ~ In k keys ->
  names_in_order keys = true -> names_in_order (keys ++ [k]) = true.
Proof.
  intros Hk. induction keys as [|k' r IH]; intros Hfresh Hord.
  - cbn. now rewrite Hk.
  - cbn [names_in_order app] in *. destruct (array_index k'); [discriminate|].
    apply andb_true_iff in Hord as [Hdup Hord]. apply andb_true_iff. split.
    + rewrite existsb_app, negb_orb. apply andb_true_iff. split; [exact Hdup|].
      cbn. rewrite orb_false_r. apply negb_true_iff.
      destruct (jsstring_eqb k' k) eqn:E; [|reflexivity].
      apply jsstring_eqb_eq in E. subst. exfalso. apply Hfresh. now left.
    + apply IH; [|exact Hord]. intros Hin. apply Hfresh. now right.
Qed.

Lemma append_name_order keys k : forall bound,
  array_index k = None -> ~ In k keys ->
  indices_then_names bound keys = true ->
  indices_then_names bound (keys ++ [k]) = true.
Proof.
  intros bound Hk. revert bound. induction keys as [|k' r IH]; intros bound Hfresh Hord.
  - cbn. now rewrite Hk.
  - cbn [indices_then_names app] in *.
    destruct (array_index k') as [j|] eqn:Ek'.
    + apply andb_true_iff in Hord as [Hb Hord]. rewrite Hb. cbn [andb].
      apply IH; [|exact Hord]. intros Hin. apply Hfresh. now right.
    + change (k' :: r ++ [k]) with ((k' :: r) ++ [k]).
      now apply names_in_order_app.
Qed.

Lemma CreateDataProperty_order {A} (props : list (jsstring * A)) k v :
  property_order (map fst props) = true ->
  property_order (map fst (CreateDataProperty props k v)) = true.
Proof.
  unfold property_order, CreateDataProperty. intros Hord.
  destruct (has_key k props) eqn:Hk.
  - now rewrite replace_value_keys.
  - destruct (array_index k) as [i|] eqn:Ek.
    + apply insert_index_order; auto. lia.
    + rewrite map_app. apply append_name_order; auto.
      now apply has_key_false.
Qed.

Lemma CreateDataProperty_values {A} (P : A -> bool) (props : list (jsstring * A)) k v :
  P v = true -> forallb (fun p => P (snd p)) props = true ->
  forallb (fun p => P (snd p)) (CreateDataProperty props k v) = true.
Proof.
  intros Hv. unfold CreateDataProperty.
  destruct (has_key k props).
  - induction props as [|[k' v'] r IH]; [reflexivity|].
    cbn [replace_value forallb snd]. rewrite andb_true_iff. intros [H1 H2].
    destruct (jsstring_eqb k k'); cbn [forallb snd]; rewrite ?Hv, ?H1, ?H2, ?IH; auto.
  - destruct (array_index k) as [i|].
    + induction props as [|[k' v'] r IH]; [cbn; now rewrite Hv|].
      cbn [insert_index forallb snd]. rewrite andb_true_iff. intros [H1 H2].
      destruct (array_index k') as [j|]; [destruct (j <? i)|];
        cbn [forallb snd]; rewrite ?Hv, ?H1, ?H2, ?IH; auto.
    + intros H. rewrite forallb_app, H. cbn. now rewrite Hv.
Qed.

Lemma object_of_members_serializable members :
  forallb (fun p => json_serializable (snd p)) members = true ->
  json_serializable (object_of_members members) = true.
Proof.
  unfold object_of_members.
  assert (H : forall props,
    property_order (map fst props) = true ->
    forallb (fun p => json_serializable (snd p)) props = true ->
    forallb (fun p => json_serializable (snd p)) members = true ->
    let r := fold_left (fun props m => CreateDataProperty props (fst m) (snd m))
                       members props in
    property_order (map fst r) = true /\
    forallb (fun p => json_serializable (snd p)) r = true).
  { induction members as [|[k v] r IH]; intros props Ho Hv Hm; [now split|].
    cbn [forallb snd] in Hm. apply andb_true_iff in Hm as [Hx Hm].
    cbn [fold_left fst snd]. apply IH; auto.
    - now apply CreateDataProperty_order.
    - now apply CreateDataProperty_values. }
  intros Hm. destruct (H [] eq_refl eq_refl Hm) as [Ho Hv].
  cbn [json_serializable]. now rewrite Ho, Hv.
Qed.

(** Every value the parser builds is a value JSON can express. *)
Lemma parse_serializable fuel :
  (forall s v rest, parse_value fuel s = POk v rest -> json_serializable v = true) /\
  (forall s vs rest, parse_elements fuel s = POk vs rest ->
     forallb json_serializable vs = true) /\
  (forall s ms rest, parse_members fuel s = POk ms rest ->
     forallb (fun p => json_serializable (snd p)) ms = true).
Proof.
  induction fuel as [|fuel (IHv & IHe & IHm)]; [repeat split; discriminate|].
  repeat split.
  - intros s v rest H. cbn [parse_value] in H. parse_step H.
    split_if H.
    { parse_step H. split_if H; [now injection H as <- _|].
      parse_step H. injection H as <- _.
      apply object_of_members_serializable. eapply IHm, Em. }
    split_if H.
    { parse_step H. split_if H; [now injection H as <- _|].
      parse_step H. injection H as <- _. eapply IHe, Ee. }
    split_if H.
    { now apply of_token_POk in H as (t & _ & ->). }
    split_if H.
    { apply of_token_POk in H as (t & H & ->). eapply parse_number_json, H. }
    repeat (split_if H; [now apply of_token_POk in H as (t & _ & ->)|]).
    discriminate.
  - intros s vs rest H. cbn [parse_elements] in H.
    parse_step H. apply IHv in Ev. parse_step H.
    split_if H; [injection H as <- _; cbn; now rewrite Ev|].
    split_if H; [|discriminate].
    parse_step H. injection H as <- _. cbn [forallb]. rewrite Ev. eapply IHe, Ee.
  - intros s ms rest H. cbn [parse_members] in H.
    parse_step H. split_if H; [|discriminate].
    parse_step H. parse_step H. split_if H; [|discriminate].
    parse_step H. apply IHv in Ev. parse_step H.
    split_if H; [injection H as <- _; cbn; now rewrite Ev|].
    split_if H; [|discriminate].
    parse_step H. injection H as <- _. cbn [forallb snd]. rewrite Ev. eapply IHm, Em.
Qed.

Lemma parse_text_serializable s v :
  parse_text s = Some v -> json_serializable v = true.
Proof.
  unfold parse_text.
  destruct (parse_value (parse_fuel s) s) as [v' rest| |] eqn:E; try discriminate.
  destruct (skip_ws rest); [|discriminate]. intros [= <-].
  eapply parse_serializable, E.
Qed.

(** ** BigInt *)

Lemma serialize_bigint v :
  if contains_bigint v then SerializeJSONProperty v = Throw TypeError
  else exists o, SerializeJSONProperty v = Normal o.
Proof.
  induction v as [| |b|n|z|s|d|l IH|props IH|f|fd] using value_ind;
    try (cbn; eauto; fail).
  - destruct b; cbn; eauto.
  - rewrite SerializeJSONProperty_array. cbn [contains_bigint].
    assert (H : if existsb contains_bigint l
                then serialize_elements l = Throw TypeError
                else exists partial, serialize_elements l = Normal partial).
    { induction IH as [|x r Hx _ IHr]; [cbn; eauto|].
      cbn [existsb serialize_elements]. fold serialize_elements.
      destruct (contains_bigint x); [now rewrite Hx|].
      destruct Hx as [o ->]. cbn [orb].
      destruct (existsb contains_bigint r); [now rewrite IHr|].
      destruct IHr as [partial ->]. eauto. }
    destruct (existsb contains_bigint l); [now rewrite H|].
    destruct H as [partial ->]. eauto.
  - rewrite SerializeJSONProperty_object. cbn [contains_bigint].
    assert (H : if existsb (fun p => contains_bigint (snd p)) props
                then serialize_members props = Throw TypeError
                else exists partial, serialize_members props = Normal partial).
    { induction IH as [|[k x] r Hx _ IHr]; [cbn; eauto|].
      cbn [existsb snd serialize_members] in *. fold serialize_members.
      destruct (contains_bigint x); [now rewrite Hx|].
      destruct Hx as [o ->]. cbn [orb].
      destruct (existsb (fun p => contains_bigint (snd p)) r); [now rewrite IHr|].
      destruct IHr as [partial ->]. destruct o; eauto. }
    destruct (existsb (fun p => contains_bigint (snd p)) props); [now rewrite H|].
    destruct H as [partial ->]. eauto.
Qed.

Lemma serialize_throws v :
  contains_bigint v = true -> SerializeJSONProperty v = Throw TypeError.
Proof. intros H. pose proof (serialize_bigint v) as B. now rewrite H in B. Qed.

(** ** The JSON equivalent *)

Lemma json_equivalent_array l :
  json_equivalent (VArray l) = Some (VArray (map equivalent_or_null l)).
Proof. reflexivity. Qed.

Lemma json_equivalent_object props :
  json_equivalent (VObject props) = Some (VObject (equivalent_members props)).
Proof. reflexivity. Qed.

Lemma indices_then_names_weaken keys bound bound' :
  bound' <= bound -> indices_then_names bound keys = true ->
  indices_then_names bound' keys = true.
Proof.
  intros Hb. destruct keys as [|k r]; [reflexivity|]. cbn [indices_then_names].
  destruct (array_index k); [|trivial].
  rewrite !andb_true_iff, !N.leb_le. intros [H1 H2]. split; [lia | exact H2].
Qed.

Lemma names_then keys bound :
  names_in_order keys = true -> indices_then_names bound keys = true.
Proof.
  destruct keys as [|k r]; [reflexivity|]. cbn [indices_then_names names_in_order].
  now destruct (array_index k).
Qed.

Lemma equivalent_members_keys props k :
  In k (map fst (equivalent_members props)) -> In k (map fst props).
Proof.
  induction props as [|[k' x] r IH]; [trivial|].
  cbn [equivalent_members]. destruct (json_equivalent x); cbn [map fst In]; tauto.
Qed.

Lemma equivalent_members_names props :
  names_in_order (map fst props) = true ->
  names_in_order (map fst (equivalent_members props)) = true.
Proof.
  induction props as [|[k x] r IH]; [trivial|].
  cbn [map fst names_in_order equivalent_members].
  destruct (array_index k) eqn:Ek; [discriminate|].
  rewrite andb_true_iff. intros [Hdup Hr].
  destruct (json_equivalent x); [|auto].
  cbn [map fst names_in_order]. rewrite Ek, IH by exact Hr.
  rewrite andb_true_r. apply negb_true_iff in Hdup. apply negb_true_iff.
  destruct (existsb (jsstring_eqb k) (map fst (equivalent_members r))) eqn:E;
    [|reflexivity].
  apply existsb_exists in E as (k' & Hin & Hk').
  rewrite <- Hdup. symmetry. apply existsb_exists. exists k'.
  split; [now apply equivalent_members_keys | exact Hk'].
Qed.

Lemma equivalent_members_order props : forall bound,
  indices_then_names bound (map fst props) = true ->
  indices_then_names bound (map fst (equivalent_members props)) = true.
Proof.
  induction props as [|[k x] r IH]; intros bound H; [trivial|].
  cbn [map fst indices_then_names] in H.
  destruct (array_index k) as [i|] eqn:Ek.
  - apply andb_true_iff in H as [Hb Hr]. cbn [equivalent_members].
    destruct (json_equivalent x).
    + cbn [map fst indices_then_names]. rewrite Ek, Hb. now apply IH.
    + apply (indices_then_names_weaken _ (i + 1)); [|now apply IH].
      apply N.leb_le in Hb. lia.
  - apply names_then.
    apply (equivalent_members_names ((k, x) :: r)). exact H.
Qed.

Lemma serialize_equivalent v :
  contains_bigint v = false -> well_formed v = true ->
  match json_equivalent v with
  | Some y => json_serializable y = true /\
              SerializeJSONProperty v = SerializeJSONProperty y
  | None => SerializeJSONProperty v = Normal None
  end.
Proof.
  induction v as [| |b|n|z|s|d|l IH|props IH|f|fd] using value_ind;
    intros Hbig Hwf; try discriminate; try (cbn; auto; fail).
  - cbn [json_equivalent well_formed] in *.
    destruct n; cbn [is_finite negb orb] in *; auto.
  - rewrite json_equivalent_array. cbn [contains_bigint well_formed] in *.
    assert (H : forallb json_serializable (map equivalent_or_null l) = true /\
                serialize_elements l = serialize_elements (map equivalent_or_null l)).
    { induction IH as [|x r Hx _ IHr]; [now split|].
      cbn [existsb forallb] in *.
      apply orb_false_iff in Hbig as [Bx Br]. apply andb_true_iff in Hwf as [Wx Wr].
      destruct (IHr Br Wr) as [Sr Er]. specialize (Hx Bx Wx).
      cbn [map forallb serialize_elements]. fold serialize_elements.
      rewrite Sr, <- Er. unfold equivalent_or_null.
      destruct (json_equivalent x) as [y|].
      - destruct Hx as [Sy ->]. now rewrite Sy.
      - rewrite Hx. now split. }
    destruct H as [Hs He]. split; [exact Hs|].
    now rewrite !SerializeJSONProperty_array, He.
  - rewrite json_equivalent_object. cbn [contains_bigint well_formed] in *.
    apply andb_true_iff in Hwf as [Hord Hwf].
    assert (H : forallb (fun p => json_serializable (snd p)) (equivalent_members props)
                = true /\
                serialize_members props = serialize_members (equivalent_members props)).
    { clear Hord. induction IH as [|[k x] r Hx _ IHr]; [now split|].
      cbn [existsb forallb snd] in *.
      apply orb_false_iff in Hbig as [Bx Br]. apply andb_true_iff in Hwf as [Wx Wr].
      destruct (IHr Br Wr) as [Sr Er]. specialize (Hx Bx Wx).
      cbn [equivalent_members serialize_members]. fold serialize_members.
      destruct (json_equivalent x) as [y|].
      - destruct Hx as [Sy ->]. cbn [forallb snd serialize_members].
        fold serialize_members. now rewrite Sy, Sr, Er.
      - rewrite Hx, <- Er. split; [exact Sr|].
        now destruct (serialize_members r). }
    destruct H as [Hs He]. split.
    + cbn [json_serializable]. rewrite Hs, andb_true_r.
      now apply equivalent_members_order.
    + now rewrite !SerializeJSONProperty_object, He.
Qed.

(** ** The two versions of safeJSON *)

Lemma parse_text_string_shorter s t :
  parse_text s = Some (VString t) -> (length t < length s)%nat.
Proof.
  unfold parse_text, parse_fuel.
  destruct (parse_value _ s) as [v rest| |] eqn:E; try discriminate.
  destruct (skip_ws rest); [|discriminate].
  intros H. injection H as ->.
  cbn [parse_value] in E. parse_step E.
  split_if E.
  { parse_step E. split_if E; [discriminate|].
    parse_step E; discriminate E. }
  split_if E.
  { parse_step E. split_if E; [discriminate|].
    parse_step E; discriminate E. }
  split_if E.
  { apply of_token_POk in E as (t' & E & [= ->]).
    apply parse_string_chars_length in E. simpl in *; lia. }
  repeat match type of E with
         | (if ?b then _ else _) = _ => destruct b
         end;
    try discriminate; apply of_token_POk in E as (? & _ & [=]).
Qed.

Lemma safeJSON_ts_total v : exists r, SafeJSON_ts.safeJSON v = Normal r.
Proof.
  unfold SafeJSON_ts.safeJSON.
  destruct (JSON_stringify v) as [text|e]; [|simpl; eauto].
  destruct (JSON_parse text); simpl; eauto.
Qed.

Lemma part_000_total v : exists r, Part_000.safeJSON v = Normal r.
Proof.
  unfold Part_000.safeJSON. destruct (JSON_parse v); simpl; eauto.
Qed.

Lemma imported_safeJSON_total safeJSON v :
  imported_safeJSON safeJSON -> exists r, safeJSON v = Normal r.
Proof.
  intros [-> | ->]; [apply safeJSON_ts_total | apply part_000_total].
Qed.

Lemma part_000_string s :
  Part_000.safeJSON (VString s) =
  Normal (match parse_text s with Some r => r | None => VString s end).
Proof.
  unfold Part_000.safeJSON, JSON_parse. cbn [ToString].
  now destruct (parse_text s).
Qed.

Lemma imported_safeJSON_null safeJSON :
  imported_safeJSON safeJSON -> safeJSON VNull = Normal VNull.
Proof. intros [-> | ->]; reflexivity. Qed.

Lemma safeJSON_ts_serializable v :
  json_serializable v = true -> SafeJSON_ts.safeJSON v = Normal v.
Proof.
  intros Hv. destruct (parse_text_serialized v Hv) as (text & Hs & Hp).
  unfold SafeJSON_ts.safeJSON, JSON_parse. rewrite Hs. cbn [ToString].
  now rewrite Hp.
Qed.

Lemma part_000_serialized v text :
  json_serializable v = true -> JSON_stringify v = Normal (VString text) ->
  Part_000.safeJSON (VString text) = Normal v.
Proof.
  intros Hv Hs. destruct (parse_text_serialized v Hv) as (text' & Hs' & Hp).
  rewrite Hs in Hs'. injection Hs' as <-.
  now rewrite part_000_string, Hp.
Qed.

Lemma part_000_rejected v :
  accepted_by_parse v = false -> Part_000.safeJSON v = Normal v.
Proof.
  unfold accepted_by_parse, Part_000.safeJSON.
  destruct (JSON_parse v); [discriminate | reflexivity].
Qed.




Lemma safeJSON_ts_throwing v :
  contains_bigint v = true -> SafeJSON_ts.safeJSON v = Normal v.
Proof.
  intros H. unfold SafeJSON_ts.safeJSON, JSON_stringify.
  now rewrite serialize_throws.
Qed.

Lemma safeJSON_ts_equivalent v :
  contains_bigint v = false -> well_formed v = true ->
  SafeJSON_ts.safeJSON v =
  Normal (match json_equivalent v with Some y => y | None => v end).
Proof.
  intros Hbig Hwf. pose proof (serialize_equivalent v Hbig Hwf) as H.
  unfold SafeJSON_ts.safeJSON, JSON_stringify.
  destruct (json_equivalent v) as [y|].
  - destruct H as [Sy ->].
    destruct (parse_text_serialized y Sy) as (text & Hs & Hp).
    unfold JSON_stringify in Hs.
    destruct (SerializeJSONProperty y) as [[t|]|]; try discriminate.
    injection Hs as ->. unfold JSON_parse. cbn [ToString]. now rewrite Hp.
  - rewrite H. reflexivity.
Qed.

(** C1. On every valid JSON text the version that parses its argument
    returns the parsed structure; the version that first serializes its
    argument returns the text itself, which is never the parsed
    structure. *)
Theorem safeJSON_valid_text s r :
  parse_text s = Some r ->
  Part_000.safeJSON (VString s) = Normal r /\
  SafeJSON_ts.safeJSON (VString s) = Normal (VString s) /\
  VString s <> r.
Proof.
  intros H. split; [|split].
  - now rewrite part_000_string, H.
  - apply safeJSON_ts_string.
  - intros <-. apply parse_text_string_shorter in H. lia.
Qed.

Lemma safeJSON_valid_text_witness :
  Part_000.safeJSON (VString id_42_text) = Normal id_42 /\
  SafeJSON_ts.safeJSON (VString id_42_text) = Normal (VString id_42_text) /\
  VString id_42_text <> id_42.
Proof. apply safeJSON_valid_text. reflexivity. Defined.

(** C2, as stated, fails: handed an uploaded file, one version returns
    the file and the other an empty object. *)
Lemma safeJSON_versions_differ :
  SafeJSON_ts.safeJSON (VFile upload) <> Part_000.safeJSON (VFile upload).
Proof. vm_compute. discriminate. Qed.

(** C2, amended. The two versions return the same result on [undefined],
    [null], booleans, symbols and finite numbers, and on every string,
    array and ordinary object that JSON can express and [JSON.parse]
    rejects: every string that is not valid JSON text among them. *)
Theorem safeJSON_versions_agree v :
  same_result_input v = true ->
  SafeJSON_ts.safeJSON v = Part_000.safeJSON v.
Proof.
  assert (Hboth : json_serializable v && negb (accepted_by_parse v) = true ->
                  SafeJSON_ts.safeJSON v = Part_000.safeJSON v).
  { rewrite andb_true_iff, negb_true_iff. intros [Hv Hrej].
    now rewrite safeJSON_ts_serializable, part_000_rejected. }
  destruct v as [| |b|n| |s| |l|props| |]; try discriminate; try exact Hboth;
    cbn [same_result_input]; intros H; try reflexivity.
  - destruct b; reflexivity.
  - destruct n; try discriminate. reflexivity.
Qed.

Lemma safeJSON_versions_agree_witness :
  SafeJSON_ts.safeJSON (VString (str "not json")) =
  Part_000.safeJSON (VString (str "not json")).
Proof. apply safeJSON_versions_agree. reflexivity. Defined.

(** C3. Handed the serialization of a value, the version that serializes
    once more returns that text, never the value; the version that
    parses its argument returns the value when JSON can express it. *)
Theorem safeJSON_of_serialized s t :
  JSON_stringify s = Normal (VString t) ->
  SafeJSON_ts.safeJSON (VString t) = Normal (VString t) /\
  VString t <> s /\
  (json_serializable s = true -> Part_000.safeJSON (VString t) = Normal s).
Proof.
  intros H. split; [apply safeJSON_ts_string|]. split.
  - intros <-. unfold JSON_stringify in H. cbn [SerializeJSONProperty] in H.
    injection H as H.
    pose proof (parse_text_QuoteJSONString t) as P.
    apply parse_text_string_shorter in P. rewrite H in P. lia.
  - intros Hs. now apply part_000_serialized.
Qed.

Lemma safeJSON_of_serialized_witness :
  SafeJSON_ts.safeJSON (VString id_42_text) = Normal (VString id_42_text) /\
  VString id_42_text <> id_42 /\
  Part_000.safeJSON (VString id_42_text) = Normal id_42.
Proof.
  destruct (safeJSON_of_serialized id_42 id_42_text eq_refl) as (H1 & H2 & H3).
  split; [exact H1|]. split; [exact H2|]. apply H3. reflexivity.
Defined.




(** ** validateForm *)

Ltac read_body safeJSON Himp Hread json :=
  unfold ValidateForm_ts.validateForm, Class_ts.validateForm;
  rewrite Hread;
  match goal with
  | |- context [safeJSON ?x] =>
    destruct (imported_safeJSON_total safeJSON x Himp) as [json Hjson];
    rewrite ?Hjson
  end.

Lemma FormData_get_defined (fd : FormData) name :
  FormData_get fd name <> VUndefined.
Proof.
  induction fd as [|[k entry] fd IH]; simpl; [discriminate|].
  destruct (jsstring_eqb name k); [destruct entry; discriminate | exact IH].
Qed.

(** C5. In minimal mode the result is the validated data when the
    schema accepts the normalized field, and [undefined] when it does
    not: neither the error nor the field as it was read, which is never
    [undefined]. *)
Theorem validateForm_minimal safeJSON request schema formData :
  imported_safeJSON safeJSON ->
  Request_formData request = Normal formData ->
  exists json,
    safeJSON (FormData_get formData (str "data")) = Normal json /\
    FormData_get formData (str "data") <> VUndefined /\
    let result := match safeParse schema json with
                  | SafeParseSuccess validated => validated
                  | SafeParseError _ => VUndefined
                  end in
    ValidateForm_ts.validateForm safeJSON request schema (Some false) = Normal result /\
    Class_ts.validateForm safeJSON request schema (Some false) = Normal result.
Proof.
  intros Himp Hread. read_body safeJSON Himp Hread json.
  exists json. split; [reflexivity|]. split; [apply FormData_get_defined|].
  destruct (safeParse schema json); split; reflexivity.
Qed.

Lemma validateForm_minimal_witness :
  exists json,
    Part_000.safeJSON (FormData_get [(str "data", EntryString id_42_text)] (str "data"))
    = Normal json /\
    FormData_get [(str "data", EntryString id_42_text)] (str "data") <> VUndefined /\
    let result := match safeParse accept_any json with
                  | SafeParseSuccess validated => validated
                  | SafeParseError _ => VUndefined
                  end in
    ValidateForm_ts.validateForm Part_000.safeJSON id_42_request accept_any (Some false)
    = Normal result /\
    Class_ts.validateForm Part_000.safeJSON id_42_request accept_any (Some false)
    = Normal result.
Proof.
  apply validateForm_minimal; [right; reflexivity | reflexivity].
Defined.

Lemma full_object parsed (fd : value) :
  CreateDataProperty (own_properties parsed) (str "formData") fd =
  own_properties parsed ++ [(str "formData", fd)].
Proof. destruct parsed; reflexivity. Qed.

Lemma Get_app_l {A} (l r : list (jsstring * A)) k x :
  Get l k = Some x -> Get (l ++ r) k = Some x.
Proof.
  induction l as [|[k' v] l IH]; simpl; [discriminate|].
  destruct (jsstring_eqb k k'); auto.
Qed.

(** C6. In full mode the result is an object with three properties:
    [success], then [data] with the validated data or [error] with the
    error of the schema, then [formData] with the form container that
    was read. *)
Theorem validateForm_full safeJSON request schema formData :
  imported_safeJSON safeJSON ->
  Request_formData request = Normal formData ->
  exists json object,
    safeJSON (FormData_get formData (str "data")) = Normal json /\
    ValidateForm_ts.validateForm safeJSON request schema (Some true) = Normal (VObject object) /\
    Class_ts.validateForm safeJSON request schema (Some true) = Normal (VObject object) /\
    Get object (str "formData") = Some (VFormData formData) /\
    match safeParse schema json with
    | SafeParseSuccess validated =>
      Get object (str "success") = Some (VBool true) /\
      Get object (str "data") = Some validated /\
      object = [(str "success", VBool true); (str "data", validated);
                (str "formData", VFormData formData)]
    | SafeParseError error =>
      Get object (str "success") = Some (VBool false) /\
      Get object (str "error") = Some error /\
      object = [(str "success", VBool false); (str "error", error);
                (str "formData", VFormData formData)]
    end.
Proof.
  intros Himp Hread. read_body safeJSON Himp Hread json.
  exists json. eexists. split; [reflexivity|].
  split; [reflexivity|]. split; [reflexivity|].
  rewrite full_object.
  destruct (safeParse schema json); split; try split; try split; reflexivity.
Qed.

Lemma validateForm_full_witness :
  exists json object,
    SafeJSON_ts.safeJSON (FormData_get [(str "data", EntryString id_42_text)] (str "data"))
    = Normal json /\
    ValidateForm_ts.validateForm SafeJSON_ts.safeJSON id_42_request reject_all (Some true)
    = Normal (VObject object) /\
    Class_ts.validateForm SafeJSON_ts.safeJSON id_42_request reject_all (Some true)
    = Normal (VObject object) /\
    Get object (str "formData") = Some (VFormData [(str "data", EntryString id_42_text)]) /\
    match safeParse reject_all json with
    | SafeParseSuccess validated =>
      Get object (str "success") = Some (VBool true) /\
      Get object (str "data") = Some validated /\
      object = [(str "success", VBool true); (str "data", validated);
                (str "formData", VFormData [(str "data", EntryString id_42_text)])]
    | SafeParseError error =>
      Get object (str "success") = Some (VBool false) /\
      Get object (str "error") = Some error /\
      object = [(str "success", VBool false); (str "error", error);
                (str "formData", VFormData [(str "data", EntryString id_42_text)])]
    end.
Proof.
  apply validateForm_full; [left; reflexivity | reflexivity].
Defined.

Lemma FormData_get_missing (fd : FormData) name :
  has_key name fd = false -> FormData_get fd name = VNull.
Proof.
  induction fd as [|[k entry] fd IH]; simpl; [reflexivity|].
  destruct (jsstring_eqb name k); [discriminate | exact IH].
Qed.

(** C7. When the form container has no field [data], the field reads as
    [null], both versions of safeJSON hand [null] to the schema, and the
    result is shaped from that outcome by the rule of the mode. *)
Theorem validateForm_missing_data safeJSON request schema formData :
  imported_safeJSON safeJSON ->
  Request_formData request = Normal formData ->
  has_key (str "data") formData = false ->
  let parsed := safeParse schema VNull in
  FormData_get formData (str "data") = VNull /\
  safeJSON VNull = Normal VNull /\
  ValidateForm_ts.validateForm safeJSON request schema (Some false)
  = Normal (if get_success parsed then get_data parsed else VUndefined) /\
  Class_ts.validateForm safeJSON request schema (Some false)
  = Normal (if get_success parsed then get_data parsed else VUndefined) /\
  ValidateForm_ts.validateForm safeJSON request schema (Some true)
  = Normal (VObject (own_properties parsed ++ [(str "formData", VFormData formData)])) /\
  Class_ts.validateForm safeJSON request schema (Some true)
  = Normal (VObject (own_properties parsed ++ [(str "formData", VFormData formData)])).
Proof.
  intros Himp Hread Hmissing parsed.
  pose proof (FormData_get_missing _ _ Hmissing) as Hget.
  pose proof (imported_safeJSON_null _ Himp) as Hnull.
  unfold ValidateForm_ts.validateForm, Class_ts.validateForm.
  rewrite Hread, Hget, Hnull, full_object.
  repeat split.
Qed.

Lemma validateForm_missing_data_witness :
  let parsed := safeParse reject_all VNull in
  FormData_get [(str "name", EntryString (str "x"))] (str "data") = VNull /\
  Part_000.safeJSON VNull = Normal VNull /\
  ValidateForm_ts.validateForm Part_000.safeJSON no_data_request reject_all (Some false)
  = Normal (if get_success parsed then get_data parsed else VUndefined) /\
  Class_ts.validateForm Part_000.safeJSON no_data_request reject_all (Some false)
  = Normal (if get_success parsed then get_data parsed else VUndefined) /\
  ValidateForm_ts.validateForm Part_000.safeJSON no_data_request reject_all (Some true)
  = Normal (VObject (own_properties parsed ++
                     [(str "formData", VFormData [(str "name", EntryString (str "x"))])])) /\
  Class_ts.validateForm Part_000.safeJSON no_data_request reject_all (Some true)
  = Normal (VObject (own_properties parsed ++
                     [(str "formData", VFormData [(str "name", EntryString (str "x"))])])).
Proof.
  apply validateForm_missing_data; [right; reflexivity | reflexivity | reflexivity].
Defined.

(** C8. validateForm fails exactly when the body of the request cannot
    be read, and then with the reason of that failure, unchanged. *)
Theorem validateForm_body_read_failure safeJSON request schema fullReturn e :
  imported_safeJSON safeJSON ->
  (Request_formData request = Throw e <->
   ValidateForm_ts.validateForm safeJSON request schema fullReturn = Throw e) /\
  (Request_formData request = Throw e <->
   Class_ts.validateForm safeJSON request schema fullReturn = Throw e).
Proof.
  intros Himp.
  unfold ValidateForm_ts.validateForm, Class_ts.validateForm.
  destruct (Request_formData request) as [formData|e'].
  - destruct (imported_safeJSON_total safeJSON
                (FormData_get formData (str "data")) Himp) as [json ->].
    split; (split; [discriminate|]).
    + destruct fullReturn as [[|]|]; discriminate.
    + destruct fullReturn as [[|]|]; discriminate.
  - split; split; intros [= ->]; reflexivity.
Qed.

Lemma validateForm_body_read_failure_witness :
  ValidateForm_ts.validateForm SafeJSON_ts.safeJSON broken_request accept_any (Some true)
  = Throw TypeError /\
  Class_ts.validateForm SafeJSON_ts.safeJSON broken_request accept_any (Some true)
  = Throw TypeError.
Proof.
  split.
  - apply (validateForm_body_read_failure SafeJSON_ts.safeJSON broken_request
             accept_any (Some true) TypeError); [left; reflexivity | reflexivity].
  - apply (validateForm_body_read_failure SafeJSON_ts.safeJSON broken_request
             accept_any (Some true) TypeError); [left; reflexivity | reflexivity].
Defined.

(** The two answers differ on every request whose body can be read: no
    value is an object that holds the value itself. *)
Lemma omitted_flag_always_differs safeJSON request schema formData :
  imported_safeJSON safeJSON ->
  Request_formData request = Normal formData ->
  ValidateForm_ts.validateForm safeJSON request schema None <>
  Class_ts.validateForm safeJSON request schema None.
Proof.
  intros Himp Hread. read_body safeJSON Himp Hread json.
  rewrite full_object.
  destruct (safeParse schema json) as [validated|error]; [|discriminate].
  intros [= H]. apply (f_equal value_size) in H. simpl in H. lia.
Qed.

(** C9. With the flag left out, the version of validateForm.ts gives
    the minimal result, the validated data or [undefined], as with
    [false]; the version of Class.ts gives the full object, as with
    [true]; and the two results differ. *)
Theorem validateForm_omitted_flag safeJSON request schema formData :
  ValidateForm_ts.validateForm safeJSON request schema None =
  ValidateForm_ts.validateForm safeJSON request schema (Some false) /\
  Class_ts.validateForm safeJSON request schema None =
  Class_ts.validateForm safeJSON request schema (Some true) /\
  (imported_safeJSON safeJSON ->
   Request_formData request = Normal formData ->
   exists json,
     safeJSON (FormData_get formData (str "data")) = Normal json /\
     ValidateForm_ts.validateForm safeJSON request schema None =
     Normal (match safeParse schema json with
             | SafeParseSuccess validated => validated
             | SafeParseError _ => VUndefined
             end) /\
     Class_ts.validateForm safeJSON request schema None =
     Normal (VObject
               match safeParse schema json with
               | SafeParseSuccess validated =>
                 [(str "success", VBool true); (str "data", validated);
                  (str "formData", VFormData formData)]
               | SafeParseError error =>
                 [(str "success", VBool false); (str "error", error);
                  (str "formData", VFormData formData)]
               end) /\
     ValidateForm_ts.validateForm safeJSON request schema None <>
     Class_ts.validateForm safeJSON request schema None).
Proof.
  split; [reflexivity|]. split; [reflexivity|].
  intros Himp Hread.
  pose proof (omitted_flag_always_differs safeJSON request schema formData
                Himp Hread) as Hdiff.
  revert Hdiff. read_body safeJSON Himp Hread json. intros Hdiff.
  exists json. split; [reflexivity|].
  rewrite full_object in *.
  destruct (safeParse schema json); (split; [reflexivity|]);
    (split; [reflexivity | exact Hdiff]).
Qed.

Lemma validateForm_omitted_flag_witness :
  exists json,
    Part_000.safeJSON (FormData_get [(str "data", EntryString id_42_text)] (str "data"))
    = Normal json /\
    ValidateForm_ts.validateForm Part_000.safeJSON id_42_request accept_any None =
    Normal (match safeParse accept_any json with
            | SafeParseSuccess validated => validated
            | SafeParseError _ => VUndefined
            end) /\
    Class_ts.validateForm Part_000.safeJSON id_42_request accept_any None =
    Normal (VObject
              match safeParse accept_any json with
              | SafeParseSuccess validated =>
                [(str "success", VBool true); (str "data", validated);
                 (str "formData", VFormData [(str "data", EntryString id_42_text)])]
              | SafeParseError error =>
                [(str "success", VBool false); (str "error", error);
                 (str "formData", VFormData [(str "data", EntryString id_42_text)])]
              end) /\
    ValidateForm_ts.validateForm Part_000.safeJSON id_42_request accept_any None <>
    Class_ts.validateForm Part_000.safeJSON id_42_request accept_any None.
Proof.
  apply (validateForm_omitted_flag Part_000.safeJSON id_42_request accept_any
           [(str "data", EntryString id_42_text)]);
    [right; reflexivity | reflexivity].
Defined.

(** C10. In minimal mode a schema that accepts its input with the data
    [undefined] and a schema that rejects it give the same answer,
    [undefined]. *)
Theorem validateForm_minimal_ambiguous :
  exists formData accepting rejecting,
    let request := {| Request_formData := Normal formData |} in
    (forall json, safeParse accepting json = SafeParseSuccess VUndefined) /\
    (forall json, get_success (safeParse rejecting json) = false) /\
    ValidateForm_ts.validateForm SafeJSON_ts.safeJSON request accepting (Some false)
    = Normal VUndefined /\
    ValidateForm_ts.validateForm SafeJSON_ts.safeJSON request rejecting (Some false)
    = Normal VUndefined /\
    ValidateForm_ts.validateForm Part_000.safeJSON request accepting (Some false)
    = Normal VUndefined /\
    ValidateForm_ts.validateForm Part_000.safeJSON request rejecting (Some false)
    = Normal VUndefined /\
    Class_ts.validateForm SafeJSON_ts.safeJSON request accepting (Some false)
    = Normal VUndefined /\
    Class_ts.validateForm SafeJSON_ts.safeJSON request rejecting (Some false)
    = Normal VUndefined /\
    Class_ts.validateForm Part_000.safeJSON request accepting (Some false)
    = Normal VUndefined /\
    Class_ts.validateForm Part_000.safeJSON request rejecting (Some false)
    = Normal VUndefined.
Proof.
  exists [(str "data", EntryString id_42_text)], accept_as_undefined, reject_all.
  repeat split.
Qed.

(** * Further properties *)

(** ** What safeJSON returns *)

Lemma JSON_parse_serializable x y :
  JSON_parse x = Normal y -> json_serializable y = true.
Proof.
  unfold JSON_parse. destruct (ToString x) as [s|]; [|discriminate].
  destruct (parse_text s) as [r|] eqn:E; [|discriminate].
  intros [= <-]. eapply parse_text_serializable, E.
Qed.

Lemma safeJSON_ts_result v r :
  SafeJSON_ts.safeJSON v = Normal r -> r = v \/ json_serializable r = true.
Proof.
  unfold SafeJSON_ts.safeJSON.
  destruct (JSON_stringify v) as [text|]; [|cbn; intros [= <-]; now left].
  destruct (JSON_parse text) as [y|] eqn:E; cbn; intros [= <-];
    [right; eapply JSON_parse_serializable, E | now left].
Qed.

Lemma part_000_result v r :
  Part_000.safeJSON v = Normal r -> r = v \/ json_serializable r = true.
Proof.
  unfold Part_000.safeJSON.
  destruct (JSON_parse v) as [y|] eqn:E; cbn; intros [= <-];
    [right; eapply JSON_parse_serializable, E | now left].
Qed.

Lemma object_of_members_shaped members :
  forallb (fun p => json_shaped (snd p)) members = true ->
  json_shaped (object_of_members members) = true.
Proof.
  unfold object_of_members.
  assert (H : forall props,
    property_order (map fst props) = true ->
    forallb (fun p => json_shaped (snd p)) props = true ->
    forallb (fun p => json_shaped (snd p)) members = true ->
    let r := fold_left (fun props m => CreateDataProperty props (fst m) (snd m))
                       members props in
    property_order (map fst r) = true /\
    forallb (fun p => json_shaped (snd p)) r = true).
  { induction members as [|[k v] r IH]; intros props Ho Hv Hm; [now split|].
    cbn [forallb snd] in Hm. apply andb_true_iff in Hm as [Hx Hm].
    cbn [fold_left fst snd]. apply IH; auto.
    - now apply CreateDataProperty_order.
    - now apply CreateDataProperty_values. }
  intros Hm. destruct (H [] eq_refl eq_refl Hm) as [Ho Hv].
  cbn [json_shaped]. now rewrite Ho, Hv.
Qed.

(** Every value the parser builds is such a tree, whatever number it
    makes of a number token. *)
Lemma parse_shaped fuel :
  (forall s v rest, parse_value fuel s = POk v rest -> json_shaped v = true) /\
  (forall s vs rest, parse_elements fuel s = POk vs rest ->
     forallb json_shaped vs = true) /\
  (forall s ms rest, parse_members fuel s = POk ms rest ->
     forallb (fun p => json_shaped (snd p)) ms = true).
Proof.
  induction fuel as [|fuel (IHv & IHe & IHm)]; [repeat split; discriminate|].
  repeat split.
  - intros s v rest H. cbn [parse_value] in H. parse_step H.
    split_if H.
    { parse_step H. split_if H; [now injection H as <- _|].
      parse_step H. injection H as <- _.
      apply object_of_members_shaped. eapply IHm, Em. }
    split_if H.
    { parse_step H. split_if H; [now injection H as <- _|].
      parse_step H. injection H as <- _. eapply IHe, Ee. }
    repeat (split_if H; [now apply of_token_POk in H as (t & _ & ->)|]).
    discriminate.
  - intros s vs rest H. cbn [parse_elements] in H.
    parse_step H. apply IHv in Ev. parse_step H.
    split_if H; [injection H as <- _; cbn; now rewrite Ev|].
    split_if H; [|discriminate].
    parse_step H. injection H as <- _. cbn [forallb]. rewrite Ev. eapply IHe, Ee.
  - intros s ms rest H. cbn [parse_members] in H.
    parse_step H. split_if H; [|discriminate].
    parse_step H. parse_step H. split_if H; [|discriminate].
    parse_step H. apply IHv in Ev. parse_step H.
    split_if H; [injection H as <- _; cbn; now rewrite Ev|].
    split_if H; [|discriminate].
    parse_step H. injection H as <- _. cbn [forallb snd]. rewrite Ev. eapply IHm, Em.
Qed.

Lemma JSON_parse_shaped x y :
  JSON_parse x = Normal y -> json_shaped y = true.
Proof.
  unfold JSON_parse. destruct (ToString x) as [s|]; [|discriminate].
  unfold parse_text.
  destruct (parse_value (parse_fuel s) s) as [r rest| |] eqn:E; try discriminate.
  destruct (skip_ws rest); [|discriminate].
  intros [= <-]. eapply parse_shaped, E.
Qed.

Lemma safeJSON_ts_shaped v r :
  SafeJSON_ts.safeJSON v = Normal r -> r = v \/ json_shaped r = true.
Proof.
  unfold SafeJSON_ts.safeJSON.
  destruct (JSON_stringify v) as [text|]; [|cbn; intros [= <-]; now left].
  destruct (JSON_parse text) as [y|] eqn:E; cbn; intros [= <-];
    [right; eapply JSON_parse_shaped, E | now left].
Qed.

Lemma part_000_shaped v r :
  Part_000.safeJSON v = Normal r -> r = v \/ json_shaped r = true.
Proof.
  unfold Part_000.safeJSON.
  destruct (JSON_parse v) as [y|] eqn:E; cbn; intros [= <-];
    [right; eapply JSON_parse_shaped, E | now left].
Qed.

(** X1. Whatever either version of safeJSON returns is its argument or
    a tree of [null], booleans, strings, numbers, arrays and ordinary
    objects: never a new [undefined], symbol, BigInt or host object. *)
Theorem safeJSON_result v r :
  (SafeJSON_ts.safeJSON v = Normal r -> r = v \/ json_shaped r = true) /\
  (Part_000.safeJSON v = Normal r -> r = v \/ json_shaped r = true).
Proof. split; [apply safeJSON_ts_shaped | apply part_000_shaped]. Qed.

Lemma safeJSON_result_witness :
  (VObject [] = with_undefined_member \/ json_shaped (VObject []) = true) /\
  (id_42 = VString id_42_text \/ json_shaped id_42 = true).
Proof.
  split.
  - apply (proj1 (safeJSON_result with_undefined_member (VObject []))). reflexivity.
  - apply (proj2 (safeJSON_result (VString id_42_text) id_42)). reflexivity.
Defined.

(** X2. The version of safeJSON.ts is idempotent: applied to its own
    result, it returns that result. *)
Theorem safeJSON_ts_idempotent v r :
  SafeJSON_ts.safeJSON v = Normal r -> SafeJSON_ts.safeJSON r = Normal r.
Proof.
  intros H. destruct (safeJSON_ts_result v r H) as [-> | Hr];
    [exact H | now apply safeJSON_ts_serializable].
Qed.

Lemma safeJSON_ts_idempotent_witness :
  SafeJSON_ts.safeJSON (VObject []) = Normal (VObject []).
Proof.
  apply (safeJSON_ts_idempotent with_undefined_member). reflexivity.
Defined.

(** X3. A BigInt at any depth makes the serialization throw, and the
    version of safeJSON.ts returns the whole value as it was, not a
    partly converted copy. *)
Theorem safeJSON_ts_bigint v :
  contains_bigint v = true -> SafeJSON_ts.safeJSON v = Normal v.
Proof. apply safeJSON_ts_throwing. Qed.

Lemma safeJSON_ts_bigint_witness :
  SafeJSON_ts.safeJSON (VArray [VNull; VObject [(str "n", VBigInt 7)]])
  = Normal (VArray [VNull; VObject [(str "n", VBigInt 7)]]).
Proof. apply safeJSON_ts_bigint. reflexivity. Defined.

(** X4. On a value without BigInt the version of safeJSON.ts returns
    the JSON equivalent: numbers that are not finite and array elements
    without equivalent become [null], object members without
    equivalent are left out, host objects become empty objects; a value
    with no equivalent at all ([undefined], a symbol) is returned as it
    is. *)
Theorem safeJSON_ts_json_equivalent v :
  contains_bigint v = false -> well_formed v = true ->
  SafeJSON_ts.safeJSON v =
  Normal (match json_equivalent v with Some y => y | None => v end).
Proof. apply safeJSON_ts_equivalent. Qed.

Lemma safeJSON_ts_json_equivalent_witness :
  SafeJSON_ts.safeJSON mixed =
  Normal (VObject [(str "1", VArray [VNull; VNull; VObject []]);
                   (str "b", VNumber (Finite 15 (-1)))]).
Proof. apply (safeJSON_ts_json_equivalent mixed); reflexivity. Defined.

(** ** BigInt and the version that parses its argument *)

Lemma parse_unsigned_digits negative n :
  parse_unsigned negative (digits n) =
  Some (decimal_number negative (digits n) [] 0, []).
Proof.
  destruct (N.eq_dec n 0) as [-> | Hn]; [reflexivity|].
  pose proof (digits_are_digits n) as Hd.
  destruct (digits n) as [|c d] eqn:E; [now apply digits_nonempty in E|].
  pose proof (digits_head n c d Hn E) as Hc.
  cbn [forallb] in Hd. apply andb_true_iff in Hd as [Hdc Hd].
  unfold parse_unsigned.
  rewrite <- (app_nil_r d) at 1.
  now rewrite parse_int_part_digits.
Qed.

(** X5. The version that parses its argument does not return a BigInt
    as it is: it returns a Number. *)
Theorem part_000_bigint z :
  exists n, Part_000.safeJSON (VBigInt z) = Normal (VNumber n).
Proof.
  assert (H : exists n, parse_number (BigInt_toString z) = Some (n, [])).
  { unfold BigInt_toString. destruct (z <? 0)%Z.
    - eexists. cbn [app parse_number]. change (45 =? 45) with true. cbv iota.
      apply parse_unsigned_digits.
    - eexists. apply parse_number_unsigned, parse_unsigned_digits. }
  destruct H as [n H]. exists n.
  unfold Part_000.safeJSON, JSON_parse. cbn [ToString].
  unfold parse_text, parse_fuel.
  now rewrite (parse_value_number _ _ _ _ H).
Qed.

(** ** What the schema is given *)

Lemma validateForm_shaped safeJSON request schema formData json b :
  Request_formData request = Normal formData ->
  safeJSON (FormData_get formData (str "data")) = Normal json ->
  ValidateForm_ts.validateForm safeJSON request schema (Some b)
  = Normal (shaped b formData (safeParse schema json)) /\
  Class_ts.validateForm safeJSON request schema (Some b)
  = Normal (shaped b formData (safeParse schema json)).
Proof.
  intros Hread Hjson.
  unfold ValidateForm_ts.validateForm, Class_ts.validateForm, shaped.
  rewrite Hread, Hjson, full_object. now destruct b.
Qed.

(** X6. With the safeJSON of safeJSON.ts, validateForm hands a text
    field to the schema as the text itself, whether or not it is valid
    JSON text. *)
Theorem validateForm_text_field request schema formData s b :
  Request_formData request = Normal formData ->
  FormData_get formData (str "data") = VString s ->
  ValidateForm_ts.validateForm SafeJSON_ts.safeJSON request schema (Some b)
  = Normal (shaped b formData (safeParse schema (VString s))) /\
  Class_ts.validateForm SafeJSON_ts.safeJSON request schema (Some b)
  = Normal (shaped b formData (safeParse schema (VString s))).
Proof.
  intros Hread Hfield. apply validateForm_shaped; [exact Hread|].
  rewrite Hfield. apply safeJSON_ts_string.
Qed.

Lemma validateForm_text_field_witness :
  ValidateForm_ts.validateForm SafeJSON_ts.safeJSON id_42_request accept_any (Some false)
  = Normal (shaped false [(str "data", EntryString id_42_text)]
              (safeParse accept_any (VString id_42_text))) /\
  Class_ts.validateForm SafeJSON_ts.safeJSON id_42_request accept_any (Some false)
  = Normal (shaped false [(str "data", EntryString id_42_text)]
              (safeParse accept_any (VString id_42_text))).
Proof. apply validateForm_text_field; reflexivity. Defined.

(** X7. Hence with the safeJSON of safeJSON.ts and a schema that
    accepts no string, validateForm.ts answers [undefined] for every
    text field, in minimal mode and with the flag left out. *)
Theorem validateForm_object_schema request schema formData s :
  rejects_strings schema ->
  Request_formData request = Normal formData ->
  FormData_get formData (str "data") = VString s ->
  ValidateForm_ts.validateForm SafeJSON_ts.safeJSON request schema (Some false)
  = Normal VUndefined /\
  ValidateForm_ts.validateForm SafeJSON_ts.safeJSON request schema None
  = Normal VUndefined.
Proof.
  intros Hrej Hread Hfield.
  unfold ValidateForm_ts.validateForm.
  rewrite Hread, Hfield, safeJSON_ts_string. cbv iota. now rewrite Hrej.
Qed.

Lemma validateForm_object_schema_witness :
  ValidateForm_ts.validateForm SafeJSON_ts.safeJSON id_42_request objects_only (Some false)
  = Normal VUndefined /\
  ValidateForm_ts.validateForm SafeJSON_ts.safeJSON id_42_request objects_only None
  = Normal VUndefined.
Proof.
  apply (validateForm_object_schema id_42_request objects_only
           [(str "data", EntryString id_42_text)] id_42_text);
    [intros s | ..]; reflexivity.
Defined.

(** X8. With the safeJSON of part_000, a value that JSON can express
    and that was sent as [JSON.stringify] of it reaches the schema as
    that value. *)
Theorem validateForm_round_trip request schema formData v text b :
  json_serializable v = true ->
  JSON_stringify v = Normal (VString text) ->
  Request_formData request = Normal formData ->
  FormData_get formData (str "data") = VString text ->
  ValidateForm_ts.validateForm Part_000.safeJSON request schema (Some b)
  = Normal (shaped b formData (safeParse schema v)) /\
  Class_ts.validateForm Part_000.safeJSON request schema (Some b)
  = Normal (shaped b formData (safeParse schema v)).
Proof.
  intros Hv Hs Hread Hfield. apply validateForm_shaped; [exact Hread|].
  rewrite Hfield. now apply part_000_serialized.
Qed.

Lemma validateForm_round_trip_witness :
  ValidateForm_ts.validateForm Part_000.safeJSON id_42_request objects_only (Some false)
  = Normal (shaped false [(str "data", EntryString id_42_text)]
              (safeParse objects_only id_42)) /\
  Class_ts.validateForm Part_000.safeJSON id_42_request objects_only (Some false)
  = Normal (shaped false [(str "data", EntryString id_42_text)]
              (safeParse objects_only id_42)).
Proof.
  apply (validateForm_round_trip id_42_request objects_only _ id_42 id_42_text);
    reflexivity.
Defined.

(** X9. When the field [data] is an uploaded file, the schema is given
    an empty object with the safeJSON of safeJSON.ts and the file itself
    with that of part_000. *)
Theorem validateForm_file_field request schema formData f b :
  Request_formData request = Normal formData ->
  FormData_get formData (str "data") = VFile f ->
  ValidateForm_ts.validateForm SafeJSON_ts.safeJSON request schema (Some b)
  = Normal (shaped b formData (safeParse schema (VObject []))) /\
  ValidateForm_ts.validateForm Part_000.safeJSON request schema (Some b)
  = Normal (shaped b formData (safeParse schema (VFile f))).
Proof.
  intros Hread Hfield. split.
  - apply (validateForm_shaped SafeJSON_ts.safeJSON); [exact Hread|].
    now rewrite Hfield.
  - apply (validateForm_shaped Part_000.safeJSON); [exact Hread|].
    now rewrite Hfield.
Qed.

Lemma validateForm_file_field_witness :
  ValidateForm_ts.validateForm SafeJSON_ts.safeJSON upload_request accept_any (Some false)
  = Normal (shaped false [(str "data", EntryFile upload)]
              (safeParse accept_any (VObject []))) /\
  ValidateForm_ts.validateForm Part_000.safeJSON upload_request accept_any (Some false)
  = Normal (shaped false [(str "data", EntryFile upload)]
              (safeParse accept_any (VFile upload))).
Proof. apply validateForm_file_field; reflexivity. Defined.

(** ** How the two modes and the two versions relate *)

(** X10. The answer of minimal mode can be read off the answer of full
    mode: it is the [data] of the object when its [success] is [true],
    and [undefined] otherwise; both modes fail together. *)
Theorem minimal_is_projection_of_full safeJSON request schema :
  match ValidateForm_ts.validateForm safeJSON request schema (Some true) with
  | Normal (VObject object) =>
    ValidateForm_ts.validateForm safeJSON request schema (Some false) =
    Normal (match Get object (str "success"), Get object (str "data") with
            | Some (VBool true), Some validated => validated
            | _, _ => VUndefined
            end)
  | Normal _ => False
  | Throw e =>
    ValidateForm_ts.validateForm safeJSON request schema (Some false) = Throw e
  end.
Proof.
  unfold ValidateForm_ts.validateForm.
  destruct (Request_formData request) as [formData|]; [|reflexivity].
  destruct (safeJSON _) as [json|]; [|reflexivity].
  rewrite full_object. now destruct (safeParse schema json).
Qed.

(** X11. When the flag is given, the two versions of validateForm give
    the same answer. *)
Theorem validateForm_versions_agree safeJSON request schema b :
  ValidateForm_ts.validateForm safeJSON request schema (Some b) =
  Class_ts.validateForm safeJSON request schema (Some b).
Proof. reflexivity. Qed.

(** X12. In minimal mode the answer depends on the form container only
    through its first field [data]: other fields, and later fields of
    that name, are ignored. *)
Theorem validateForm_reads_data_only safeJSON schema formData formData' :
  FormData_get formData (str "data") = FormData_get formData' (str "data") ->
  ValidateForm_ts.validateForm safeJSON
    {| Request_formData := Normal formData |} schema (Some false) =
  ValidateForm_ts.validateForm safeJSON
    {| Request_formData := Normal formData' |} schema (Some false) /\
  Class_ts.validateForm safeJSON
    {| Request_formData := Normal formData |} schema (Some false) =
  Class_ts.validateForm safeJSON
    {| Request_formData := Normal formData' |} schema (Some false).
Proof.
  intros H. unfold ValidateForm_ts.validateForm, Class_ts.validateForm.
  cbn [Request_formData]. now rewrite H.
Qed.

Lemma validateForm_reads_data_only_witness :
  ValidateForm_ts.validateForm Part_000.safeJSON
    {| Request_formData := Normal [(str "data", EntryString id_42_text)] |}
    accept_any (Some false) =
  ValidateForm_ts.validateForm Part_000.safeJSON
    {| Request_formData := Normal crowded_form |} accept_any (Some false) /\
  Class_ts.validateForm Part_000.safeJSON
    {| Request_formData := Normal [(str "data", EntryString id_42_text)] |}
    accept_any (Some false) =
  Class_ts.validateForm Part_000.safeJSON
    {| Request_formData := Normal crowded_form |} accept_any (Some false).
Proof. apply validateForm_reads_data_only. reflexivity. Defined.

(** X13. The version that parses its argument unwraps an array of one
    element: when [JSON.parse] accepts the element, the result is the
    parsed element, not the array. *)
Theorem part_000_unwraps_array x r :
  is_nullish x = false -> JSON_parse x = Normal r ->
  Part_000.safeJSON (VArray [x]) = Normal r.
Proof.
  intros Hx Hr. unfold Part_000.safeJSON, JSON_parse in *.
  assert (E : ToString (VArray [x]) = (sx <- ToString x ;; Normal sx)).
  { destruct x; try discriminate; reflexivity. }
  rewrite E. destruct (ToString x) as [s|]; [|discriminate].
  destruct (parse_text s); [|discriminate]. now injection Hr as <-.
Qed.

Lemma part_000_unwraps_array_witness :
  Part_000.safeJSON (VArray [VString id_42_text]) = Normal id_42.
Proof. apply part_000_unwraps_array; reflexivity. Defined.

(** X14. What validateForm hands to the schema is the field as it was
    read or a tree of [null], booleans, strings, numbers, arrays and
    ordinary objects, and never [undefined]. *)
Theorem schema_input safeJSON (formData : FormData) json :
  imported_safeJSON safeJSON ->
  safeJSON (FormData_get formData (str "data")) = Normal json ->
  (json = FormData_get formData (str "data") \/ json_shaped json = true) /\
  json <> VUndefined.
Proof.
  intros Himp H.
  assert (Hr : json = FormData_get formData (str "data") \/
               json_shaped json = true).
  { destruct Himp as [-> | ->];
      [now apply safeJSON_ts_shaped | now apply part_000_shaped]. }
  split; [exact Hr|].
  destruct Hr as [-> | Hr]; [apply FormData_get_defined|].
  intros ->. discriminate.
Qed.

Lemma schema_input_witness :
  (id_42 = FormData_get [(str "data", EntryString id_42_text)] (str "data") \/
   json_shaped id_42 = true) /\
  id_42 <> VUndefined.
Proof.
  apply (schema_input Part_000.safeJSON [(str "data", EntryString id_42_text)]);
    [right; reflexivity | reflexivity].
Defined.
